(** * tiniestfsm: a shallow embedding of [include/tiniestfsm.h]

    The header is a C++20 template library.  Its compile-time part (type
    lists, capability probes, the type-to-index mapping) is embedded as
    functions over a list of state types with decidable equality; its
    run-time part ([enterState], [process], the accessors) as a small
    state-and-trace monad over the machine object.  User code (handlers,
    enter hooks, [main]) is a command tree over the public interface of the
    machine, interpreted with a bound on the depth of nested invocations. *)

From stdpp Require Import base numbers list strings.

(** ** Unsigned arithmetic *)

(** [unsigned] is 32 bits wide on the supported compilers. *)
Definition UINT_WIDTH : N := 32.

Definition to_unsigned (n : N) : N := (n mod 2 ^ UINT_WIDTH)%N.

(** A parameter pack whose size is representable as [unsigned]. *)
Definition pack_fits {A} (l : list A) : Prop :=
  (N.of_nat (length l) < 2 ^ UINT_WIDTH)%N.

(** ** namespace details: predicates over type lists *)

Module details.
Section TypeList.
Context {Ty : Type} `{EqDecision Ty}.

(** [std::is_same_v<A, B>] *)
Definition is_same_v (A B : Ty) : bool := bool_decide (A = B).

(** [(false || ... || std::is_same_v<Elem, List>)], a binary left fold. *)
Definition elem_in_list_v (Elem : Ty) (List : list Ty) : bool :=
  fold_left (fun acc T => acc || is_same_v Elem T) List false.

(** [(0u + ... + std::is_same_v<Elem, List>)]: the sum is computed in
    [unsigned]. *)
Definition count_in_list_v (Elem : Ty) (List : list Ty) : N :=
  fold_left
    (fun acc T => to_unsigned (acc + (if is_same_v Elem T then 1 else 0)))
    List 0%N.

(** [(true && ... && (count_in_list_v<Ts, Ts...> == 1))] *)
Definition are_distinct_v (Ts : list Ty) : bool :=
  fold_left (fun acc T => acc && (count_in_list_v T Ts =? 1)%N) Ts true.

End TypeList.
End details.

(** ** Standard-library facilities used by the header *)

(** [std::distance(r.begin(), std::ranges::find(r, true))]: the position of
    the first [true], or the size of the range when there is none. *)
Fixpoint find_distance (r : list bool) : nat :=
  match r with
  | [] => 0
  | b :: r' => if b then 0 else S (find_distance r')
  end.

Section StdTuple.
Context {Ty : Type} `{EqDecision Ty}.

(** Positions of the entries of a pack that are the type [T]. *)
Fixpoint positions_from (i : nat) (T : Ty) (Ts : list Ty) : list nat :=
  match Ts with
  | [] => []
  | U :: Ts' =>
      if details.is_same_v T U then i :: positions_from (S i) T Ts'
      else positions_from (S i) T Ts'
  end.

(** [std::get<T>(tuple)]: the element whose type is [T]; ill-formed unless
    the tuple has exactly one element of that type.  The result is the
    position of that element in the tuple. *)
Definition std_get (T : Ty) (Ts : list Ty) : option nat :=
  match positions_from 0 T Ts with
  | [p] => Some p
  | _ => None
  end.

(** [std::tuple_element_t<I, std::tuple<Ts...>>] *)
Definition tuple_element_t (I : nat) (Ts : list Ty) : option Ty := Ts !! I.
End StdTuple.

(** ** The machine, user code and the result of running it *)

Section Embedding.
Context {Ty EvTy Payload Inst Host : Type} `{EqDecision Ty}.

(** Code of the integrating application: the body of a handler, of an
    enter hook or of [main].  It reaches the machine only through the
    public members of [StateMachine] and the fields of the derived class;
    [m_currentState] and [m_states] are private. *)
Inductive code : Type :=
| Return
| EnterState (NewState : Ty) (k : code)        (* door->enterState<NewState>() *)
| Process (Event : EvTy) (ev : Payload) (k : code)   (* door->process(ev) *)
| CurrentStateId (k : N -> code)               (* door->currentStateId() *)
| GetState (State : Ty) (k : Inst -> code)     (* read door->getState<State>() *)
| SetState (State : Ty) (v : Inst) (k : code)  (* door->getState<State>() = v *)
| GetHost (k : Host -> code)                   (* read the derived fields *)
| SetHost (h : Host) (k : code)                (* write the derived fields *)
| Print (text : string) (k : code).            (* std::cout << text *)

(** What the capability probes see of a state type. *)
Record StateClass : Type := {
  is_class : bool;                              (* std::is_class<State> *)
  handle : EvTy -> option (Payload -> code);    (* s.handle(host, ev) *)
  enter : option code                           (* s.enter(host) *)
}.

(** The host object: the two data members of [StateMachine] and the
    fields the derived class adds. *)
Record StateMachine : Type := {
  m_currentState : N;
  m_states : list Inst;
  derived : Host
}.

Definition set_currentState (i : N) (m : StateMachine) : StateMachine :=
  {| m_currentState := i; m_states := m_states m; derived := derived m |}.

Definition set_states (b : list Inst) (m : StateMachine) : StateMachine :=
  {| m_currentState := m_currentState m; m_states := b; derived := derived m |}.

Definition set_derived (h : Host) (m : StateMachine) : StateMachine :=
  {| m_currentState := m_currentState m; m_states := m_states m; derived := h |}.

(** The calls made while an operation runs, in the order they happen; the
    calls a user body makes are nested under the call of that body. *)
#[warnings="-register-all"] Inductive call : Type :=
| Transition (NewState : Ty) (index : N)
    (* enterState<NewState> stored index in m_currentState *)
| EnterHook (State : Ty) (pos : nat) (nested : list call)
    (* std::get<State>(m_states).enter(fsm()) on the instance at pos *)
| Handler (State : Ty) (pos : nat) (Event : EvTy) (ev : Payload)
          (nested : list call)
    (* std::get<State>(m_states).handle(fsm(), ev) on the instance at pos *)
| Output (text : string).

Inductive result (A : Type) : Type :=
| Done (a : A) (m : StateMachine) (tr : list call)
| Undefined    (* _TINIEST_FSM_UNREACHABLE was reached, or a read past an array *)
| Rejected     (* a static_assert or constraint fails: the program is ill-formed *)
| OutOfFuel.   (* the bound on nested invocations was hit *)
Global Arguments Done {A} a m tr.
Global Arguments Undefined {A}.
Global Arguments Rejected {A}.
Global Arguments OutOfFuel {A}.

Definition M (A : Type) : Type := StateMachine -> result A.

Definition ret {A} (a : A) : M A := fun m => Done a m [].

Definition bind {A B} (x : M A) (f : A -> M B) : M B := fun m =>
  match x m with
  | Done a m1 t1 =>
      match f a m1 with
      | Done b m2 t2 => Done b m2 (t1 ++ t2)
      | Undefined => Undefined
      | Rejected => Rejected
      | OutOfFuel => OutOfFuel
      end
  | Undefined => Undefined
  | Rejected => Rejected
  | OutOfFuel => OutOfFuel
  end.

Definition undefined {A} : M A := fun _ => Undefined.
Definition rejected {A} : M A := fun _ => Rejected.
Definition emit (c : call) : M unit := fun m => Done tt m [c].
Definition get : M StateMachine := fun m => Done m m [].
Definition put (m' : StateMachine) : M unit := fun _ => Done tt m' [].

(** Run a user body and file the calls it makes under one call node. *)
Definition traced (node : list call -> call) (body : M unit) : M unit :=
  fun m =>
    match body m with
    | Done a m' tr => Done a m' [node tr]
    | Undefined => Undefined
    | Rejected => Rejected
    | OutOfFuel => OutOfFuel
    end.
End Embedding.

Global Arguments code : clear implicits.
Global Arguments StateClass : clear implicits.
Global Arguments StateMachine : clear implicits.
Global Arguments call : clear implicits.
Global Arguments result : clear implicits.
Global Arguments M : clear implicits.

Declare Scope fsm_scope.
Delimit Scope fsm_scope with fsm.
Notation "x <- c ;; k" := (bind c (fun x => k))
  (at level 100, c at next level, right associativity) : fsm_scope.
Notation "c ;; k" := (bind c (fun _ => k))
  (at level 100, right associativity) : fsm_scope.

(** ** class StateMachine<DerivedClass, std::tuple<States...>> *)

(** [uint16_t], the type of the template parameter of [processFromIndex]:
    a template argument must be representable in it, since a narrowing
    conversion of a template argument makes the instantiation ill-formed. *)
Definition fits_uint16 (n : N) : bool := (n <? 2 ^ 16)%N.

Section StateMachine.
Context {Ty EvTy Payload Inst Host : Type} `{EqDecision Ty}.

Local Abbreviation Code := (code Ty EvTy Payload Inst Host).
Local Abbreviation Machine := (StateMachine Inst Host).
Local Abbreviation Call := (call Ty EvTy Payload).
Local Abbreviation Mon := (M Ty EvTy Payload Inst Host).
Local Open Scope fsm_scope.

(** The class definitions of the translation unit and the pack [States...]. *)
Variable classes : Ty -> StateClass Ty EvTy Payload Inst Host.
Variable States : list Ty.

(** The requires-clause of the partial specialisation. *)
Definition constraints_satisfied : bool :=
  details.are_distinct_v States
  && forallb (fun S => is_class (classes S)) States
  && (0 <? length States).

Definition s_nStates : nat := length States.

Definition valid_state_v (State : Ty) : bool :=
  details.elem_in_list_v State States.

(** [requires (State && s, const Event & ev) { s.handle((FSM* )nullptr, ev); }] *)
Definition has_handler_v (State : Ty) (Event : EvTy) : bool :=
  match handle (classes State) Event with Some _ => true | None => false end.

(** [requires (NewState && s) { s.enter(fsm()); }] *)
Definition hasEnter (NewState : Ty) : bool :=
  match enter (classes NewState) with Some _ => true | None => false end.

(** [None] when the static_assert fails. *)
Definition getStateIndex (State : Ty) : option nat :=
  if valid_state_v State then
    let isIt := map (fun S => details.is_same_v State S) States in
    Some (find_distance isIt)
  else None.

Definition currentStateId : Mon N :=
  fun m => Done (m_currentState m) m [].

(** [getState] returns a reference into [m_states]: the position of the
    instance.  The const and the non-const overload have the same body. *)
Definition getState (State : Ty) : Mon nat :=
  if valid_state_v State then
    match std_get State States with
    | Some pos => ret pos
    | None => rejected
    end
  else rejected.

(** Reading and writing through the reference [getState] returned.  A bank
    that has no instance at the position does not represent the tuple. *)
Definition load (pos : nat) : Mon Inst := fun m =>
  match m_states m !! pos with
  | Some v => Done v m []
  | None => Undefined
  end.

Definition store (pos : nat) (v : Inst) : Mon unit := fun m =>
  match m_states m !! pos with
  | Some _ => Done tt (set_states (<[pos := v]> (m_states m)) m) []
  | None => Undefined
  end.

Section Engine.
(** How the body of a handler or of an enter hook is run. *)
Variable invoke : Code -> Mon unit.

Definition processFromState (State : Ty) (Event : EvTy) (ev : Payload)
  : Mon unit :=
  if has_handler_v State Event then
    match std_get State States, handle (classes State) Event with
    | Some pos, Some h => traced (Handler State pos Event ev) (invoke (h ev))
    | _, _ => rejected
    end
  else ret tt.

Definition processFromIndex (StateIndex : N) (Event : EvTy) (ev : Payload)
  : Mon unit :=
  if fits_uint16 StateIndex then
    if (StateIndex <? N.of_nat (length States))%N then
      match tuple_element_t (N.to_nat StateIndex) States with
      | Some State => processFromState State Event ev
      | None => rejected
      end
    else rejected
  else rejected.

(** In sequence: change state to [NewState], then call [NewState::enter]
    if it exists. *)
Definition enterState (NewState : Ty) : Mon unit :=
  if valid_state_v NewState then
    match getStateIndex NewState with
    | Some i =>
        let index := to_unsigned (N.of_nat i) in
        m <- get ;;
        put (set_currentState index m) ;;
        emit (Transition NewState index) ;;
        if hasEnter NewState then
          match std_get NewState States, enter (classes NewState) with
          | Some pos, Some hook => traced (EnterHook NewState pos) (invoke hook)
          | _, _ => rejected
          end
        else ret tt
    | None => rejected
    end
  else rejected.

(** *** The switch strategy *)

(** A case label with its statement.  Every case of the generated switch
    either ends in [break] or runs into [_TINIEST_FSM_UNREACHABLE], so no
    case falls through into the next one. *)
Definition case_stmt : Type := N * Mon unit.

Definition _TINIEST_FSM_DISPATCH_4 (n : N) (X : N -> case_stmt)
  : list case_stmt :=
  [X n; X (n + 1)%N; X (n + 2)%N; X (n + 3)%N].

Definition _TINIEST_FSM_DISPATCH_16 (n : N) (X : N -> case_stmt)
  : list case_stmt :=
  _TINIEST_FSM_DISPATCH_4 n X ++ _TINIEST_FSM_DISPATCH_4 (n + 4)%N X
  ++ _TINIEST_FSM_DISPATCH_4 (n + 8)%N X
  ++ _TINIEST_FSM_DISPATCH_4 (n + 12)%N X.

Definition _TINIEST_FSM_DISPATCH_64 (n : N) (X : N -> case_stmt)
  : list case_stmt :=
  _TINIEST_FSM_DISPATCH_16 n X ++ _TINIEST_FSM_DISPATCH_16 (n + 16)%N X
  ++ _TINIEST_FSM_DISPATCH_16 (n + 32)%N X
  ++ _TINIEST_FSM_DISPATCH_16 (n + 48)%N X.

Definition _TINIEST_FSM_DISPATCH_256 (n : N) (X : N -> case_stmt)
  : list case_stmt :=
  _TINIEST_FSM_DISPATCH_64 n X ++ _TINIEST_FSM_DISPATCH_64 (n + 64)%N X
  ++ _TINIEST_FSM_DISPATCH_64 (n + 128)%N X
  ++ _TINIEST_FSM_DISPATCH_64 (n + 192)%N X.

Definition _TINIEST_FSM_UNREACHABLE : Mon unit := undefined.

Definition _TINIEST_FSM_CASE (Event : EvTy) (ev : Payload) (n : N)
  : case_stmt :=
  (n,
   if (n <? N.of_nat s_nStates)%N
   then processFromIndex n Event ev   (* break *)
   else _TINIEST_FSM_UNREACHABLE).

(** [switch (v) { cases default: dflt }] *)
Fixpoint switch (v : N) (cases : list case_stmt) (dflt : Mon unit)
  : Mon unit :=
  match cases with
  | [] => dflt
  | (label, stmt) :: rest =>
      if (v =? label)%N then stmt else switch v rest dflt
  end.

Definition _TINIEST_FSM_DISPATCH_IMPL
    (dispatcher : N -> (N -> case_stmt) -> list case_stmt)
    (Event : EvTy) (ev : Payload) : Mon unit :=
  fun m =>
    switch (m_currentState m)
           (dispatcher 0%N (_TINIEST_FSM_CASE Event ev))
           _TINIEST_FSM_UNREACHABLE m.

(** *** The table strategy: the last branch of [process] *)

Definition process_fun_t : Type := Payload -> Mon unit.

Definition f (Event : EvTy) : list (option process_fun_t) :=
  map (fun S => if has_handler_v S Event
                then Some (processFromState S Event)
                else None (* nullptr *))
      States.

Definition process_table (Event : EvTy) (ev : Payload) : Mon unit :=
  fun m =>
    match f Event !! N.to_nat (m_currentState m) with
    | Some (Some fn) => fn ev m
    | Some None => Done tt m []
    | None => Undefined
    end.

Definition process (Event : EvTy) (ev : Payload) : Mon unit :=
  if s_nStates <=? 4 then
    _TINIEST_FSM_DISPATCH_IMPL _TINIEST_FSM_DISPATCH_4 Event ev
  else if s_nStates <=? 16 then
    _TINIEST_FSM_DISPATCH_IMPL _TINIEST_FSM_DISPATCH_16 Event ev
  else if s_nStates <=? 64 then
    _TINIEST_FSM_DISPATCH_IMPL _TINIEST_FSM_DISPATCH_64 Event ev
  else if s_nStates <=? 256 then
    _TINIEST_FSM_DISPATCH_IMPL _TINIEST_FSM_DISPATCH_256 Event ev
  else process_table Event ev.

End Engine.

(** ** Running user code *)

(** [interp fuel c] runs the body [c]; the bodies it invokes through the
    engine run with [fuel - 1], so [fuel] bounds the depth of nested
    handler and hook invocations. *)
Fixpoint interp (fuel : nat) : Code -> Mon unit :=
  match fuel with
  | O => fun _ _ => OutOfFuel
  | S fuel' =>
      fix body (c : Code) : Mon unit :=
        match c with
        | Return => ret tt
        | EnterState NewState k => enterState (interp fuel') NewState ;; body k
        | Process Event ev k => process (interp fuel') Event ev ;; body k
        | CurrentStateId k => i <- currentStateId ;; body (k i)
        | GetState State k => p <- getState State ;; v <- load p ;; body (k v)
        | SetState State v k => p <- getState State ;; store p v ;; body k
        | GetHost k => m <- get ;; body (k (derived m))
        | SetHost h k => m <- get ;; put (set_derived h m) ;; body k
        | Print text k => emit (Output text) ;; body k
        end
  end.

(** The public members as a client calls them. *)
Definition call_enterState (fuel : nat) (NewState : Ty) : Mon unit :=
  enterState (interp fuel) NewState.

Definition call_process (fuel : nat) (Event : EvTy) (ev : Payload) : Mon unit :=
  process (interp fuel) Event ev.

End StateMachine.

Global Arguments interp {Ty EvTy Payload Inst Host _} classes States fuel c m.
Global Arguments call_enterState {Ty EvTy Payload Inst Host _}
  classes States fuel NewState m.
Global Arguments call_process {Ty EvTy Payload Inst Host _}
  classes States fuel Event ev m.

(** ** The example programs of the repository *)

Definition endl : string := String (Ascii.ascii_of_nat 10) EmptyString.

(** [examples/ex1.cpp]: a door that is open or closed. *)
Module ex1.

Inductive state : Set := OpenState | CloseState.
Inductive event : Set := OpenEvent | CloseEvent.

#[global] Instance state_eq_dec : EqDecision state.
Proof. solve_decision. Defined.

Definition Code : Type := code state event unit unit unit.

Definition OpenState_class : StateClass state event unit unit unit :=
  {| is_class := true;
     handle := fun E =>
       match E with
       | CloseEvent => Some (fun _ =>
           Print ("OpenState handling CloseEvent" +:+ endl)
                 (EnterState CloseState Return))
       | OpenEvent => None
       end;
     enter := None |}.

Definition CloseState_class : StateClass state event unit unit unit :=
  {| is_class := true;
     handle := fun E =>
       match E with
       | OpenEvent => Some (fun _ =>
           Print ("CloseState handling OpenEvent" +:+ endl)
                 (EnterState OpenState Return))
       | CloseEvent => None
       end;
     enter := None |}.

Definition classes (S : state) : StateClass state event unit unit unit :=
  match S with
  | OpenState => OpenState_class
  | CloseState => CloseState_class
  end.

(** [struct Door : StateMachine<Door, std::tuple<OpenState, CloseState>>] *)
Definition States : list state := [OpenState; CloseState].

(** [Door door{}]: value-initialised, the index starts at zero. *)
Definition door : StateMachine unit unit :=
  {| m_currentState := 0; m_states := [tt; tt]; derived := tt |}.

Definition main : Code :=
  EnterState OpenState
    (Process CloseEvent tt
       (Process CloseEvent tt      (* already closed, nothing happens *)
          (Process OpenEvent tt Return))).

End ex1.

(** The second example (a door with a lock): [MyFSM] with the key as a
    field of the derived class.  Events carry their key, the events without
    fields carry 0; [LockedState] has the field [x]. *)
Module ex2.

Inductive state : Set := OpenState | CloseState | LockedState.
Inductive event : Set := OpenEvent | CloseEvent | LockEvent | UnlockEvent.

#[global] Instance state_eq_dec : EqDecision state.
Proof. solve_decision. Defined.

Definition Code : Type := code state event N Z N.

Definition OpenState_class : StateClass state event N Z N :=
  {| is_class := true;
     handle := fun E =>
       match E with
       | CloseEvent => Some (fun _ =>
           Print ("OpenState handling CloseEvent" +:+ endl)
                 (EnterState CloseState Return))
       | _ => None
       end;
     enter := None |}.

Definition CloseState_class : StateClass state event N Z N :=
  {| is_class := true;
     handle := fun E =>
       match E with
       | OpenEvent => Some (fun _ =>
           Print ("CloseState handling OpenEvent" +:+ endl)
                 (EnterState OpenState Return))
       | LockEvent => Some (fun key =>
           Print ("CloseState handling LockEvent" +:+ endl)
                 (GetHost (fun m_key =>
                    if (key =? m_key)%N then EnterState LockedState Return
                    else Return)))
       | _ => None
       end;
     enter := None |}.

Definition LockedState_class : StateClass state event N Z N :=
  {| is_class := true;
     handle := fun E =>
       match E with
       | UnlockEvent => Some (fun key =>
           Print ("LockedState handling UnlockEvent" +:+ endl)
                 (GetHost (fun m_key =>
                    if (key =? m_key)%N then EnterState CloseState Return
                    else Return)))
       | _ => None
       end;
     enter := None |}.

Definition classes (S : state) : StateClass state event N Z N :=
  match S with
  | OpenState => OpenState_class
  | CloseState => CloseState_class
  | LockedState => LockedState_class
  end.

Definition States : list state := [OpenState; CloseState; LockedState].

(** [MyFSM fsm{123u}]: the constructor sets the key; the default
    constructor of [std::tuple] value-initialises the instances, so
    [LockedState::x] is 0 (the states without fields are written 0 too);
    the index starts with whatever value it happens to have. *)
Definition fsm (index : N) : StateMachine Z N :=
  {| m_currentState := index; m_states := [0%Z; 0%Z; 0%Z]; derived := 123%N |}.

Definition main : Code :=
  EnterState OpenState
    (Process CloseEvent 0%N
    (Process OpenEvent 0%N
    (Process CloseEvent 0%N
    (Process LockEvent 521%N        (* wrong key, nothing happens *)
    (Process LockEvent 123%N
    (Process UnlockEvent 521%N      (* wrong key, nothing happens *)
    (Process UnlockEvent 123%N Return))))))).

End ex2.

(** A client whose state has an enter hook that moves the machine on:
    [Starting::enter] calls [enterState<Running>()], as the interface allows
    ([enter(FSM* )] receives the machine like a handler does). *)
Module hooked.

Inductive state : Set := Starting | Running.
Inductive event : Set := Tick.

#[global] Instance state_eq_dec : EqDecision state.
Proof. solve_decision. Defined.

Definition classes (S : state) : StateClass state event unit unit unit :=
  match S with
  | Starting =>
      {| is_class := true;
         handle := fun _ => None;
         enter := Some (EnterState Running Return) |}
  | Running =>
      {| is_class := true;
         handle := fun E =>
           match E with
           | Tick => Some (fun _ => EnterState Starting Return)
           end;
         enter := Some (Print "running" Return) |}
  end.

Definition States : list state := [Starting; Running].

Definition machine (index : N) : StateMachine unit unit :=
  {| m_currentState := index; m_states := [tt; tt]; derived := tt |}.

End hooked.

(** A machine with 300 states, numbered; state [i] handles the one event by
    entering state [i + 1] (the last one by entering state 0).  With more
    than 256 states [process] takes the table branch. *)
Module many.

Definition state : Set := nat.

Definition classes (S : state) : StateClass state unit unit unit unit :=
  {| is_class := true;
     handle := fun _ => Some (fun _ =>
       EnterState (if S <? 299 then S + 1 else 0) Return);
     enter := None |}.

Definition States : list state := seq 0 300.

Definition machine (index : N) : StateMachine unit unit :=
  {| m_currentState := index; m_states := replicate 300 tt; derived := tt |}.

End many.

(** ** Vocabulary of the specification *)

(** The number of entries of a list that are [E]. *)
Definition occurrences {Ty : Type} `{EqDecision Ty} (E : Ty) (L : list Ty) : nat :=
  length (filter (fun T => T = E) L).

Section Vocabulary.
Context {Ty EvTy Payload Inst Host : Type} `{EqDecision Ty}.

Local Abbreviation Machine := (StateMachine Inst Host).
Local Abbreviation Call := (call Ty EvTy Payload).

(** A state set the class template accepts, of a size an implementation
    can count in [unsigned]. *)
Definition valid_state_set
    (classes : Ty -> StateClass Ty EvTy Payload Inst Host)
    (States : list Ty) : Prop :=
  constraints_satisfied classes States = true /\ pack_fits States.

(** The values stored in [m_currentState] while a trace was produced, in
    the order of the stores. *)
Fixpoint stores_of (c : Call) : list N :=
  match c with
  | Transition _ index => [index]
  | EnterHook _ _ nested => flat_map stores_of nested
  | Handler _ _ _ _ nested => flat_map stores_of nested
  | Output _ => []
  end.

Definition stores (tr : list Call) : list N := flat_map stores_of tr.

(** The targets of the [enterState] calls of a trace, in order. *)
Fixpoint targets_of (c : Call) : list Ty :=
  match c with
  | Transition NewState _ => [NewState]
  | EnterHook _ _ nested => flat_map targets_of nested
  | Handler _ _ _ _ nested => flat_map targets_of nested
  | Output _ => []
  end.

Definition targets (tr : list Call) : list Ty := flat_map targets_of tr.

(** The targets of the [enterState] calls a body makes itself (not the
    ones made by the hooks and handlers it triggers), in order. *)
Definition own_target (c : Call) : option Ty :=
  match c with
  | Transition NewState _ => Some NewState
  | _ => None
  end.

Definition own_targets (tr : list Call) : list Ty := omap own_target tr.

(** The handler calls an operation makes itself (not the ones made by the
    bodies it calls): state, instance position, event type, event value. *)
Definition direct_handler (c : Call) : option (Ty * nat * EvTy * Payload) :=
  match c with
  | Handler State pos Event ev _ => Some (State, pos, Event, ev)
  | _ => None
  end.

Definition direct_handlers (tr : list Call) : list (Ty * nat * EvTy * Payload) :=
  omap direct_handler tr.

(** The enter-hook calls an operation makes itself. *)
Definition direct_hook (c : Call) : option (Ty * nat) :=
  match c with
  | EnterHook State pos _ => Some (State, pos)
  | _ => None
  end.

Definition direct_hooks (tr : list Call) : list (Ty * nat) :=
  omap direct_hook tr.

(** The index after a trace that started at index [i0]: the last value
    stored, or [i0] when nothing was stored. *)
Definition index_after (i0 : N) (tr : list Call) : N :=
  default i0 (last (stores tr)).

(** A relation between the machine before an operation, the trace of the
    operation and the machine after it that every step of the engine and
    of user code respects. *)
Record trace_invariant (States : list Ty)
    (R : Machine -> list Call -> Machine -> Prop) : Prop := {
  inv_refl : forall m, R m [] m;
  inv_trans : forall m1 m2 m3 t1 t2,
    R m1 t1 m2 -> R m2 t2 m3 -> R m1 (t1 ++ t2) m3;
  inv_transition : forall m NewState i,
    States !! i = Some NewState ->
    R m [Transition NewState (to_unsigned (N.of_nat i))]
      (set_currentState (to_unsigned (N.of_nat i)) m);
  inv_hook : forall m m' State pos tr,
    R m tr m' -> R m [EnterHook State pos tr] m';
  inv_handler : forall m m' State pos Event ev tr,
    R m tr m' -> R m [Handler State pos Event ev tr] m';
  inv_store : forall m pos v,
    pos < length (m_states m) ->
    R m [] (set_states (<[pos := v]> (m_states m)) m);
  inv_derived : forall m h, R m [] (set_derived h m);
  inv_output : forall m text, R m [Output text] m
}.

(** A store of [enterState<NewState>]: the value stored is the position
    of [NewState] in the pack, converted to [unsigned]. *)
Definition store_of_target (States : list Ty) (NewState : Ty) (index : N) : Prop :=
  exists i, States !! i = Some NewState /\ index = to_unsigned (N.of_nat i).

(** What every operation does to the machine, read off its trace: the
    index ends at the last value stored (or where it was), every store is
    the store of an [enterState], and the bank keeps its size. *)
Definition tracks (States : list Ty)
    (m : Machine) (tr : list Call) (m' : Machine) : Prop :=
  m_currentState m' = index_after (m_currentState m) tr
  /\ Forall2 (store_of_target States) (targets tr) (stores tr)
  /\ length (m_states m') = length (m_states m).

(** The labels [k, k+1, ..., k+len-1] of consecutive cases. *)
Definition labels (k : N) (len : nat) : list N :=
  map (fun i => (k + N.of_nat i)%N) (seq 0 len).

(** Dispatch as the specification describes it: the dispatch step of the
    state at the current index, and nothing defined when the index is not
    that of a state. *)
Definition dispatch_at_index
    (classes : Ty -> StateClass Ty EvTy Payload Inst Host)
    (States : list Ty)
    (invoke : code Ty EvTy Payload Inst Host -> M Ty EvTy Payload Inst Host unit)
    (Event : EvTy) (ev : Payload) : M Ty EvTy Payload Inst Host unit :=
  fun m =>
    match States !! N.to_nat (m_currentState m) with
    | Some State => processFromState classes States invoke State Event ev m
    | None => Undefined
    end.

(** The transition as the specification describes it, for the state
    [NewState] at ordinal [i]: store the index, then run the enter hook of
    [NewState] if it declares one. *)
Definition enterState_resolved
    (classes : Ty -> StateClass Ty EvTy Payload Inst Host)
    (invoke : code Ty EvTy Payload Inst Host -> M Ty EvTy Payload Inst Host unit)
    (NewState : Ty) (i : nat) : M Ty EvTy Payload Inst Host unit :=
  fun m =>
    let index := to_unsigned (N.of_nat i) in
    bind (put (set_currentState index m)) (fun _ =>
    bind (emit (Transition NewState index)) (fun _ =>
      match enter (classes NewState) with
      | Some hook => traced (EnterHook NewState i) (invoke hook)
      | None => ret tt
      end)) m.

(** The machine represents an object of the class: the index is that of
    a state and the bank holds one instance per state. *)
Definition represents (States : list Ty) (m : Machine) : Prop :=
  (m_currentState m < N.of_nat (length States))%N
  /\ length (m_states m) = length States.

End Vocabulary.

(** ** Vocabulary of the further properties *)

Section FurtherVocabulary.
Context {Ty EvTy Payload Inst Host : Type} `{EqDecision Ty}.

(** User code that writes neither a state instance nor a field of the
    derived class. *)
Fixpoint read_only (c : code Ty EvTy Payload Inst Host) : Prop :=
  match c with
  | Return => True
  | EnterState _ k => read_only k
  | Process _ _ k => read_only k
  | CurrentStateId k => forall i, read_only (k i)
  | GetState _ k => forall v, read_only (k v)
  | SetState _ _ _ => False
  | GetHost k => forall h, read_only (k h)
  | SetHost _ _ => False
  | Print _ k => read_only k
  end.

(** Class definitions none of whose handlers and enter hooks writes. *)
Definition classes_read_only
    (classes : Ty -> StateClass Ty EvTy Payload Inst Host) : Prop :=
  forall State,
    (forall Event h ev,
        handle (classes State) Event = Some h -> read_only (h ev))
    /\ (forall hook, enter (classes State) = Some hook -> read_only hook).

(** A client that dispatches the events of a list one after the other:
    [fsm.process(e1); fsm.process(e2); ...]. *)
Fixpoint process_all (evs : list (EvTy * Payload))
  : code Ty EvTy Payload Inst Host :=
  match evs with
  | [] => Return
  | (Event, ev) :: rest => Process Event ev (process_all rest)
  end.

(** What the calls of a trace wrote to [std::cout], in order. *)
Fixpoint output_of (c : call Ty EvTy Payload) : list string :=
  match c with
  | Transition _ _ => []
  | EnterHook _ _ nested => flat_map output_of nested
  | Handler _ _ _ _ nested => flat_map output_of nested
  | Output text => [text]
  end.

Definition output (tr : list (call Ty EvTy Payload)) : list string :=
  flat_map output_of tr.

End FurtherVocabulary.

(** The state diagram of the first example, as the README draws it: an
    event without an edge leaves the state. *)
Module ex1_diagram.

Definition next (s : ex1.state) (e : ex1.event) : ex1.state :=
  match s, e with
  | ex1.OpenState, ex1.CloseEvent => ex1.CloseState
  | ex1.CloseState, ex1.OpenEvent => ex1.OpenState
  | _, _ => s
  end.

Definition ordinal (s : ex1.state) : nat :=
  match s with ex1.OpenState => 0 | ex1.CloseState => 1 end.

(** The line a state prints when it handles an event. *)
Definition line (s : ex1.state) (e : ex1.event) : list string :=
  match s, e with
  | ex1.OpenState, ex1.CloseEvent => ["OpenState handling CloseEvent" +:+ endl]
  | ex1.CloseState, ex1.OpenEvent => ["CloseState handling OpenEvent" +:+ endl]
  | _, _ => []
  end.

Definition door (s : ex1.state) : StateMachine unit unit :=
  {| m_currentState := N.of_nat (ordinal s); m_states := [tt; tt];
     derived := tt |}.

(** The state the diagram reaches on a sequence of events, and the lines
    printed on the way. *)
Fixpoint run (s : ex1.state) (evs : list (ex1.event * unit)) : ex1.state :=
  match evs with
  | [] => s
  | (e, _) :: rest => run (next s e) rest
  end.

Fixpoint lines (s : ex1.state) (evs : list (ex1.event * unit)) : list string :=
  match evs with
  | [] => []
  | (e, _) :: rest => line s e ++ lines (next s e) rest
  end.

End ex1_diagram.

(** The state diagram of the second example, as the README draws it, for a
    door with the key [m_key]: locking and unlocking take the right key. *)
Module ex2_diagram.

Definition next (m_key : N) (s : ex2.state) (e : ex2.event) (key : N)
  : ex2.state :=
  match s, e with
  | ex2.OpenState, ex2.CloseEvent => ex2.CloseState
  | ex2.CloseState, ex2.OpenEvent => ex2.OpenState
  | ex2.CloseState, ex2.LockEvent =>
      if (key =? m_key)%N then ex2.LockedState else ex2.CloseState
  | ex2.LockedState, ex2.UnlockEvent =>
      if (key =? m_key)%N then ex2.CloseState else ex2.LockedState
  | _, _ => s
  end.

Definition ordinal (s : ex2.state) : nat :=
  match s with
  | ex2.OpenState => 0
  | ex2.CloseState => 1
  | ex2.LockedState => 2
  end.

Definition line (s : ex2.state) (e : ex2.event) : list string :=
  match s, e with
  | ex2.OpenState, ex2.CloseEvent => ["OpenState handling CloseEvent" +:+ endl]
  | ex2.CloseState, ex2.OpenEvent => ["CloseState handling OpenEvent" +:+ endl]
  | ex2.CloseState, ex2.LockEvent => ["CloseState handling LockEvent" +:+ endl]
  | ex2.LockedState, ex2.UnlockEvent =>
      ["LockedState handling UnlockEvent" +:+ endl]
  | _, _ => []
  end.

(** A door with the key [m_key] in the state [s]; [x] is the field of
    [LockedState]. *)
Definition door (m_key : N) (x : Z) (s : ex2.state) : StateMachine Z N :=
  {| m_currentState := N.of_nat (ordinal s); m_states := [0%Z; 0%Z; x];
     derived := m_key |}.

(** The state the diagram reaches on a sequence of events with their keys,
    and the lines printed on the way. *)
Fixpoint run (m_key : N) (s : ex2.state) (evs : list (ex2.event * N))
  : ex2.state :=
  match evs with
  | [] => s
  | (e, key) :: rest => run m_key (next m_key s e key) rest
  end.

Fixpoint lines (m_key : N) (s : ex2.state) (evs : list (ex2.event * N))
  : list string :=
  match evs with
  | [] => []
  | (e, key) :: rest => line s e ++ lines m_key (next m_key s e key) rest
  end.

End ex2_diagram.

(** * Facts about the type-list predicates *)

Section TypeListFacts.
Context {Ty : Type} `{EqDecision Ty}.
Implicit Types (E T : Ty) (L : list Ty).

Lemma is_same_v_true E T : details.is_same_v E T = true <-> E = T.
Proof. unfold details.is_same_v. apply bool_decide_eq_true. Qed.

Lemma is_same_v_refl E : details.is_same_v E E = true.
Proof. by apply is_same_v_true. Qed.

Lemma is_same_v_false E T : details.is_same_v E T = false <-> E <> T.
Proof. unfold details.is_same_v. apply bool_decide_eq_false. Qed.

Lemma fold_or_acc E L (a : bool) :
  fold_left (fun acc T => acc || details.is_same_v E T) L a
  = a || fold_left (fun acc T => acc || details.is_same_v E T) L false.
Proof.
  revert a. induction L as [|T L IH]; intros a; simpl.
  - by rewrite orb_false_r.
  - rewrite IH. rewrite (IH (details.is_same_v E T)).
    by rewrite orb_assoc.
Qed.

Lemma is_same_v_eq E T : details.is_same_v E T = true -> E = T.
Proof. apply is_same_v_true. Qed.

Lemma is_same_v_neq E T : details.is_same_v E T = false -> E <> T.
Proof. apply is_same_v_false. Qed.

Lemma is_same_v_neq_false E T : E <> T -> details.is_same_v E T = false.
Proof. apply is_same_v_false. Qed.

Lemma elem_in_list_v_cons E T L :
  details.elem_in_list_v E (T :: L)
  = details.is_same_v E T || details.elem_in_list_v E L.
Proof. unfold details.elem_in_list_v. simpl. apply fold_or_acc. Qed.

Lemma elem_in_list_v_elem_of E L :
  details.elem_in_list_v E L = true <-> E ∈ L.
Proof.
  induction L as [|T L IH].
  - split; [discriminate | by intros ?%elem_of_nil].
  - rewrite elem_in_list_v_cons, orb_true_iff, IH, is_same_v_true, elem_of_cons.
    done.
Qed.

Lemma occurrences_cons E T L :
  occurrences E (T :: L)
  = (if details.is_same_v E T then 1 else 0) + occurrences E L.
Proof.
  unfold occurrences, details.is_same_v. rewrite filter_cons.
  destruct (decide (T = E)) as [->|Hne].
  - by rewrite bool_decide_eq_true_2.
  - rewrite bool_decide_eq_false_2; [done | congruence].
Qed.

Lemma occurrences_le_length E L : occurrences E L <= length L.
Proof. unfold occurrences. apply length_filter. Qed.

Lemma occurrences_pos E L : 0 < occurrences E L <-> E ∈ L.
Proof.
  induction L as [|T L IH].
  - split; [unfold occurrences; simpl; lia | by intros ?%elem_of_nil].
  - rewrite occurrences_cons, elem_of_cons.
    destruct (details.is_same_v E T) eqn:Hs.
    + apply is_same_v_eq in Hs. split; [by left | lia].
    + apply is_same_v_neq in Hs. simpl. rewrite IH.
      split; [by right | by intros [?|?]].
Qed.

(** The unsigned sum does not wrap as long as the count and what is still
    to be added stay below the modulus. *)
Lemma count_fold_no_wrap E L (a : N) :
  (a + N.of_nat (length L) < 2 ^ UINT_WIDTH)%N ->
  fold_left
    (fun acc T => to_unsigned (acc + (if details.is_same_v E T then 1 else 0)))
    L a
  = (a + N.of_nat (occurrences E L))%N.
Proof.
  revert a. induction L as [|T L IH]; intros a Hfit.
  - unfold occurrences. simpl. lia.
  - cbn [fold_left]. rewrite occurrences_cons.
    cbn [length] in Hfit.
    assert (Hb : ((if details.is_same_v E T then 1 else 0) <= 1)%N)
      by (destruct (details.is_same_v E T); lia).
    unfold to_unsigned at 2. rewrite N.mod_small by lia.
    rewrite IH by lia.
    destruct (details.is_same_v E T); lia.
Qed.

Lemma count_in_list_v_occurrences E L :
  pack_fits L -> details.count_in_list_v E L = N.of_nat (occurrences E L).
Proof.
  intros Hfit. unfold details.count_in_list_v.
  rewrite count_fold_no_wrap; [lia | exact Hfit].
Qed.

Lemma fold_and_acc (p : Ty -> bool) L (a : bool) :
  fold_left (fun acc T => acc && p T) L a = a && forallb p L.
Proof.
  revert a. induction L as [|T L IH]; intros a; simpl.
  - by rewrite andb_true_r.
  - rewrite IH. by rewrite andb_assoc.
Qed.

Lemma are_distinct_v_occurrences L :
  pack_fits L ->
  details.are_distinct_v L = true <-> (forall T, T ∈ L -> occurrences T L = 1).
Proof.
  intros Hfit. unfold details.are_distinct_v.
  rewrite fold_and_acc. simpl. rewrite forallb_forall.
  split; intros Hall T HT.
  - apply list_elem_of_In in HT. specialize (Hall T HT).
    rewrite count_in_list_v_occurrences in Hall by done.
    apply N.eqb_eq in Hall. lia.
  - apply list_elem_of_In in HT. rewrite count_in_list_v_occurrences by done.
    apply N.eqb_eq. rewrite (Hall T HT). done.
Qed.

Lemma occurrences_one_NoDup L :
  (forall T, T ∈ L -> occurrences T L = 1) <-> NoDup L.
Proof.
  induction L as [|U L IH].
  - split; [constructor | by intros _ T ?%elem_of_nil].
  - rewrite NoDup_cons, <- IH. split.
    + intros Hall. split.
      * intros HU. specialize (Hall U (list_elem_of_here _ _)).
        rewrite occurrences_cons, is_same_v_refl in Hall.
        apply occurrences_pos in HU. lia.
      * intros T HT. specialize (Hall T (list_elem_of_further _ _ _ HT)).
        rewrite occurrences_cons in Hall.
        apply occurrences_pos in HT.
        destruct (details.is_same_v T U); simpl in Hall; lia.
    + intros [HU Hall] T HT. rewrite occurrences_cons.
      destruct (details.is_same_v T U) eqn:Hs.
      * apply is_same_v_eq in Hs. subst T.
        destruct (occurrences U L) eqn:Ho; [done |].
        exfalso. apply HU, occurrences_pos. lia.
      * apply is_same_v_neq in Hs.
        apply elem_of_cons in HT as [?|HT]; [done |].
        simpl. by apply Hall.
Qed.

Lemma are_distinct_v_NoDup L :
  pack_fits L -> details.are_distinct_v L = true <-> NoDup L.
Proof.
  intros Hfit. rewrite are_distinct_v_occurrences by done.
  apply occurrences_one_NoDup.
Qed.

End TypeListFacts.

(** * Facts about the type-to-index mapping *)

Section IndexFacts.
Context {Ty : Type} `{EqDecision Ty}.
Implicit Types (S T : Ty) (L : list Ty).

Lemma find_distance_le_length S L :
  find_distance (map (fun T => details.is_same_v S T) L) <= length L.
Proof.
  induction L as [|T L IH]; simpl; [lia |].
  destruct (details.is_same_v S T); lia.
Qed.

Lemma find_distance_lookup S L :
  S ∈ L ->
  L !! find_distance (map (fun T => details.is_same_v S T) L) = Some S.
Proof.
  induction L as [|T L IH]; intros Hin.
  - by apply elem_of_nil in Hin.
  - simpl. destruct (details.is_same_v S T) eqn:Hs.
    + apply is_same_v_eq in Hs. subst T. reflexivity.
    + apply is_same_v_neq in Hs. simpl. apply IH.
      apply elem_of_cons in Hin as [?|?]; done.
Qed.

Lemma find_distance_lt S L :
  S ∈ L -> find_distance (map (fun T => details.is_same_v S T) L) < length L.
Proof. intros Hin. eapply lookup_lt_Some, find_distance_lookup, Hin. Qed.

(** No earlier entry is [S]: the position found is the first one. *)
Lemma find_distance_first S L j :
  L !! j = Some S ->
  find_distance (map (fun T => details.is_same_v S T) L) <= j.
Proof.
  revert j. induction L as [|T L IH]; intros j Hj; [done |].
  simpl. destruct (details.is_same_v S T) eqn:Hs; [lia |].
  destruct j as [|j]; simpl in Hj.
  - apply is_same_v_neq in Hs. congruence.
  - specialize (IH j Hj). lia.
Qed.

Lemma find_distance_unique S L j :
  NoDup L -> L !! j = Some S ->
  find_distance (map (fun T => details.is_same_v S T) L) = j.
Proof.
  intros Hnd Hj. eapply NoDup_lookup; [exact Hnd | | exact Hj].
  apply find_distance_lookup. eapply list_elem_of_lookup_2, Hj.
Qed.

Lemma positions_from_not_elem i S L : S ∉ L -> positions_from i S L = [].
Proof.
  revert i. induction L as [|T L IH]; intros i Hn; [done |].
  apply not_elem_of_cons in Hn as [Hne Hn]. simpl.
  apply is_same_v_neq_false in Hne. rewrite Hne. by apply IH.
Qed.

Lemma positions_from_NoDup i S L :
  NoDup L -> S ∈ L ->
  positions_from i S L
  = [i + find_distance (map (fun T => details.is_same_v S T) L)].
Proof.
  revert i. induction L as [|T L IH]; intros i Hnd Hin.
  - by apply elem_of_nil in Hin.
  - apply NoDup_cons in Hnd as [HT Hnd]. simpl.
    destruct (details.is_same_v S T) eqn:Hs.
    + apply is_same_v_eq in Hs. subst T.
      rewrite positions_from_not_elem by done. f_equal. lia.
    + apply is_same_v_neq in Hs.
      apply elem_of_cons in Hin as [?|Hin]; [done |].
      rewrite IH by done. f_equal. lia.
Qed.

Lemma positions_from_bound i S L p :
  p ∈ positions_from i S L -> i <= p < i + length L.
Proof.
  revert i. induction L as [|T L IH]; intros i Hp; simpl in Hp.
  - by apply elem_of_nil in Hp.
  - destruct (details.is_same_v S T).
    + apply elem_of_cons in Hp as [->|Hp]; [simpl; lia |].
      apply IH in Hp. simpl. lia.
    + apply IH in Hp. simpl. lia.
Qed.

Lemma std_get_lt S L p : std_get S L = Some p -> p < length L.
Proof.
  unfold std_get. destruct (positions_from 0 S L) as [|q [|]] eqn:Hpos;
    try discriminate.
  intros [= ->]. pose proof (positions_from_bound 0 S L p) as Hb.
  rewrite Hpos in Hb. specialize (Hb (list_elem_of_here _ _)). lia.
Qed.

(** On a duplicate-free pack [std::get<S>] resolves to the first (and only)
    position of [S]. *)
Lemma std_get_find_distance S L :
  NoDup L -> S ∈ L ->
  std_get S L = Some (find_distance (map (fun T => details.is_same_v S T) L)).
Proof.
  intros Hnd Hin. unfold std_get. by rewrite positions_from_NoDup.
Qed.

End IndexFacts.

(** * Facts about the monad *)

Section MonadFacts.
Context {Ty EvTy Payload Inst Host : Type}.
Local Abbreviation Machine := (StateMachine Inst Host).
Local Abbreviation Call := (call Ty EvTy Payload).
Local Abbreviation Mon := (M Ty EvTy Payload Inst Host).

Lemma bind_Done {A B} (x : Mon A) (g : A -> Mon B) m b m' tr :
  bind x g m = Done b m' tr <->
  exists a m1 t1 t2,
    x m = Done a m1 t1 /\ g a m1 = Done b m' t2 /\ tr = t1 ++ t2.
Proof.
  unfold bind. split.
  - destruct (x m) as [a m1 t1| | |]; try discriminate.
    destruct (g a m1) as [b' m2 t2| | |] eqn:Hg; try discriminate.
    intros [= -> -> <-]. by exists a, m1, t1, t2.
  - intros (a & m1 & t1 & t2 & -> & -> & ->). done.
Qed.

Lemma bind_get {B} (g : Machine -> Mon B) m : bind get g m = g m m.
Proof. unfold bind, get. by destruct (g m m). Qed.

Lemma traced_Done (node : list Call -> Call) (body : Mon unit) m u m' tr :
  traced node body m = Done u m' tr <->
  exists tr', body m = Done u m' tr' /\ tr = [node tr'].
Proof.
  unfold traced. split.
  - destruct (body m) as [a m1 t1| | |]; try discriminate.
    intros [= -> -> <-]. by exists t1.
  - intros (tr' & -> & ->). done.
Qed.

End MonadFacts.

(** * Facts about dispatch *)

Section DispatchFacts.
Context {Ty EvTy Payload Inst Host : Type} `{EqDecision Ty}.
Local Abbreviation Code := (code Ty EvTy Payload Inst Host).
Local Abbreviation Machine := (StateMachine Inst Host).
Local Abbreviation Call := (call Ty EvTy Payload).
Local Abbreviation Mon := (M Ty EvTy Payload Inst Host).
Local Abbreviation Case := (case_stmt (Ty:=Ty) (EvTy:=EvTy) (Payload:=Payload) (Inst:=Inst) (Host:=Host)).

Variable classes : Ty -> StateClass Ty EvTy Payload Inst Host.
Variable States : list Ty.
Variable invoke : Code -> Mon unit.

Lemma labels_S k len : labels k (S len) = k :: labels (k + 1) len.
Proof.
  unfold labels. cbn [seq map]. f_equal; [lia |].
  rewrite <- seq_shift, map_map. apply map_ext. intros i. lia.
Qed.

(** A switch whose cases are labelled by consecutive numbers selects the
    case of its operand when there is one and the default otherwise. *)
Lemma switch_labels (X : N -> Case) (dflt : Mon unit) v len k :
  (forall n, fst (X n) = n) ->
  switch v (map X (labels k len)) dflt
  = if ((k <=? v) && (v <? k + N.of_nat len))%N then snd (X v) else dflt.
Proof.
  intros Hlab. revert k. induction len as [|len IH]; intros k.
  - replace ((k <=? v) && (v <? k + N.of_nat 0))%N with false; [reflexivity |].
    symmetry. apply andb_false_iff.
    destruct (N.leb_spec k v); [right; apply N.ltb_ge; lia | by left].
  - rewrite labels_S. cbn [map switch].
    destruct (X k) as [label stmt] eqn:HX.
    assert (label = k) as -> by (rewrite <- (Hlab k), HX; done).
    destruct (v =? k)%N eqn:Hvk.
    + apply N.eqb_eq in Hvk. subst v. rewrite HX. simpl.
      rewrite N.leb_refl. simpl.
      destruct (k <? k + N.of_nat (S len))%N eqn:Hlt; [done |].
      apply N.ltb_ge in Hlt. lia.
    + rewrite IH. apply N.eqb_neq in Hvk.
      destruct (k <=? v)%N eqn:H1, (k + 1 <=? v)%N eqn:H2,
               (v <? k + 1 + N.of_nat len)%N eqn:H3,
               (v <? k + N.of_nat (S len))%N eqn:H4; simpl; try done;
      repeat match goal with
             | Hx : (_ <=? _)%N = true |- _ => apply N.leb_le in Hx
             | Hx : (_ <=? _)%N = false |- _ => apply N.leb_gt in Hx
             | Hx : (_ <? _)%N = true |- _ => apply N.ltb_lt in Hx
             | Hx : (_ <? _)%N = false |- _ => apply N.ltb_ge in Hx
             end; lia.
Qed.

(** What the dispatch macros expand to. *)
Lemma DISPATCH_4_labels (X : N -> Case) :
  _TINIEST_FSM_DISPATCH_4 0 X = map X (labels 0 4).
Proof. reflexivity. Qed.

Lemma DISPATCH_16_labels (X : N -> Case) :
  _TINIEST_FSM_DISPATCH_16 0 X = map X (labels 0 16).
Proof. reflexivity. Qed.

Lemma DISPATCH_64_labels (X : N -> Case) :
  _TINIEST_FSM_DISPATCH_64 0 X = map X (labels 0 64).
Proof. reflexivity. Qed.

Lemma DISPATCH_256_labels (X : N -> Case) :
  _TINIEST_FSM_DISPATCH_256 0 X = map X (labels 0 256).
Proof. reflexivity. Qed.

End DispatchFacts.

Section ProcessFacts.
Context {Ty EvTy Payload Inst Host : Type} `{EqDecision Ty}.
Local Abbreviation Code := (code Ty EvTy Payload Inst Host).
Local Abbreviation Machine := (StateMachine Inst Host).
Local Abbreviation Call := (call Ty EvTy Payload).
Local Abbreviation Mon := (M Ty EvTy Payload Inst Host).
Local Abbreviation Case := (case_stmt (Ty:=Ty) (EvTy:=EvTy) (Payload:=Payload) (Inst:=Inst) (Host:=Host)).

Variable classes : Ty -> StateClass Ty EvTy Payload Inst Host.
Variable States : list Ty.
Variable invoke : Code -> Mon unit.

Lemma lookup_map {A B} (g : A -> B) (l : list A) i :
  map g l !! i = option_map g (l !! i).
Proof.
  revert i. induction l as [|a l IH]; intros [|i]; simpl; done.
Qed.

Lemma fits_uint16_small n : (n < 2 ^ 16)%N -> fits_uint16 n = true.
Proof. intros Hn. unfold fits_uint16. by apply N.ltb_lt. Qed.

(** The dispatch step for an index that is a [uint16_t] value and the
    position of a state is the dispatch step of that state. *)
Lemma processFromIndex_lookup i State Event ev :
  (i < 2 ^ 16)%N ->
  States !! N.to_nat i = Some State ->
  processFromIndex classes States invoke i Event ev
  = processFromState classes States invoke State Event ev.
Proof.
  intros Hfit Hi. unfold processFromIndex, tuple_element_t.
  rewrite fits_uint16_small, Hi by done.
  apply lookup_lt_Some in Hi.
  destruct (i <? N.of_nat (length States))%N eqn:Hlt; [done |].
  apply N.ltb_ge in Hlt. lia.
Qed.

(** An index that is not a [uint16_t] value cannot be a template argument
    of [processFromIndex]. *)
Lemma processFromIndex_narrowing i Event ev :
  (2 ^ 16 <= i)%N ->
  processFromIndex classes States invoke i Event ev = rejected.
Proof.
  intros Hbig. unfold processFromIndex, fits_uint16.
  by rewrite (proj2 (N.ltb_ge _ _)).
Qed.

(** The generated switch, for any of the four case counts. *)
Lemma DISPATCH_IMPL_dispatch
    (dispatcher : N -> (N -> Case) -> list Case) (bound : nat) Event ev m :
  (forall X, dispatcher 0%N X = map X (labels 0 bound)) ->
  length States <= bound -> bound <= 256 ->
  _TINIEST_FSM_DISPATCH_IMPL classes States invoke dispatcher Event ev m
  = dispatch_at_index classes States invoke Event ev m.
Proof.
  intros Hexp Hn Hb. unfold _TINIEST_FSM_DISPATCH_IMPL, dispatch_at_index.
  rewrite Hexp, switch_labels by done.
  set (v := m_currentState m).
  replace (0 <=? v)%N with true by (symmetry; apply N.leb_le; lia).
  cbn [andb fst snd _TINIEST_FSM_CASE]. unfold s_nStates.
  destruct (v <? 0 + N.of_nat bound)%N eqn:Hvb.
  - apply N.ltb_lt in Hvb.
    destruct (v <? N.of_nat (length States))%N eqn:Hvn.
    + apply N.ltb_lt in Hvn.
      destruct (lookup_lt_is_Some_2 States (N.to_nat v)) as [State HS]; [lia |].
      rewrite HS.
      rewrite (processFromIndex_lookup _ State); [done | lia | done].
    + apply N.ltb_ge in Hvn. rewrite lookup_ge_None_2 by lia. done.
  - apply N.ltb_ge in Hvb. rewrite lookup_ge_None_2 by lia. done.
Qed.

(** The function table has one entry per state. *)
Lemma length_f Event : length (f classes States invoke Event) = length States.
Proof. unfold f. apply length_map. Qed.

Lemma process_table_dispatch Event ev m :
  process_table classes States invoke Event ev m
  = dispatch_at_index classes States invoke Event ev m.
Proof.
  unfold process_table, dispatch_at_index, f. rewrite lookup_map.
  destruct (States !! N.to_nat (m_currentState m)) as [State|]; [|done].
  simpl. unfold processFromState.
  destruct (has_handler_v classes State Event); done.
Qed.

(** Whatever the number of states, [process] runs the dispatch step of
    the state at the current index. *)
Lemma process_dispatch Event ev m :
  process classes States invoke Event ev m
  = dispatch_at_index classes States invoke Event ev m.
Proof.
  unfold process, s_nStates.
  destruct (length States <=? 4) eqn:H4.
  { apply Nat.leb_le in H4.
    apply (DISPATCH_IMPL_dispatch _ 4); [apply DISPATCH_4_labels | lia | lia]. }
  destruct (length States <=? 16) eqn:H16.
  { apply Nat.leb_le in H16.
    apply (DISPATCH_IMPL_dispatch _ 16); [apply DISPATCH_16_labels | lia | lia]. }
  destruct (length States <=? 64) eqn:H64.
  { apply Nat.leb_le in H64.
    apply (DISPATCH_IMPL_dispatch _ 64); [apply DISPATCH_64_labels | lia | lia]. }
  destruct (length States <=? 256) eqn:H256.
  { apply Nat.leb_le in H256.
    apply (DISPATCH_IMPL_dispatch _ 256); [apply DISPATCH_256_labels | lia | lia]. }
  apply process_table_dispatch.
Qed.

End ProcessFacts.

(** * Facts about valid state sets *)

Section StateSetFacts.
Context {Ty EvTy Payload Inst Host : Type} `{EqDecision Ty}.
Local Abbreviation Code := (code Ty EvTy Payload Inst Host).
Local Abbreviation Machine := (StateMachine Inst Host).
Local Abbreviation Call := (call Ty EvTy Payload).
Local Abbreviation Mon := (M Ty EvTy Payload Inst Host).

Variable classes : Ty -> StateClass Ty EvTy Payload Inst Host.
Variable States : list Ty.

Lemma valid_state_set_NoDup : valid_state_set classes States -> NoDup States.
Proof.
  intros [Hc Hfit]. unfold constraints_satisfied in Hc.
  apply andb_true_iff in Hc as [Hc _]. apply andb_true_iff in Hc as [Hd _].
  by apply are_distinct_v_NoDup.
Qed.

Lemma valid_state_set_nonempty :
  valid_state_set classes States -> 0 < length States.
Proof.
  intros [Hc _]. unfold constraints_satisfied in Hc.
  apply andb_true_iff in Hc as [_ Hn]. by apply Nat.ltb_lt in Hn.
Qed.

Lemma valid_state_v_elem_of State :
  valid_state_v States State = true <-> State ∈ States.
Proof. apply elem_in_list_v_elem_of. Qed.

Lemma getStateIndex_Some State i :
  getStateIndex States State = Some i ->
  States !! i = Some State /\ i < length States.
Proof.
  unfold getStateIndex.
  destruct (valid_state_v States State) eqn:Hv; [|discriminate].
  apply valid_state_v_elem_of in Hv. intros [= <-].
  split; [by apply find_distance_lookup | by apply find_distance_lt].
Qed.

Lemma getStateIndex_lookup State i :
  NoDup States -> States !! i = Some State ->
  getStateIndex States State = Some i.
Proof.
  intros Hnd Hi. unfold getStateIndex.
  assert (Hin : State ∈ States) by (eapply list_elem_of_lookup_2, Hi).
  apply valid_state_v_elem_of in Hin as Hv. rewrite Hv. f_equal.
  by apply find_distance_unique.
Qed.

Lemma std_get_lookup State i :
  NoDup States -> States !! i = Some State -> std_get State States = Some i.
Proof.
  intros Hnd Hi.
  assert (Hin : State ∈ States) by (eapply list_elem_of_lookup_2, Hi).
  rewrite std_get_find_distance by done. f_equal.
  by apply find_distance_unique.
Qed.

Lemma to_unsigned_index i :
  pack_fits States -> i < length States -> to_unsigned (N.of_nat i) = N.of_nat i.
Proof.
  unfold pack_fits, to_unsigned. intros Hfit Hi. apply N.mod_small. lia.
Qed.

(** The stored index is that of a state even if the conversion to
    [unsigned] were to wrap. *)
Lemma to_unsigned_lt i n : i < n -> (to_unsigned (N.of_nat i) < N.of_nat n)%N.
Proof.
  intros Hi. unfold to_unsigned.
  pose proof (N.Div0.mod_le (N.of_nat i) (2 ^ UINT_WIDTH)). lia.
Qed.

Section WithInvoke.
Variable invoke : Code -> Mon unit.

Lemma processFromState_no_handler State Event ev m :
  handle (classes State) Event = None ->
  processFromState classes States invoke State Event ev m = Done tt m [].
Proof.
  intros Hh. unfold processFromState, has_handler_v. by rewrite Hh.
Qed.

Lemma processFromState_handler State i Event ev h :
  NoDup States -> States !! i = Some State ->
  handle (classes State) Event = Some h ->
  processFromState classes States invoke State Event ev
  = traced (Handler State i Event ev) (invoke (h ev)).
Proof.
  intros Hnd Hi Hh. unfold processFromState, has_handler_v.
  by rewrite Hh, (std_get_lookup _ i).
Qed.

Lemma enterState_lookup NewState i m :
  NoDup States -> States !! i = Some NewState ->
  enterState classes States invoke NewState m
  = enterState_resolved classes invoke NewState i m.
Proof.
  intros Hnd Hi. unfold enterState, enterState_resolved.
  assert (Hin : NewState ∈ States) by (eapply list_elem_of_lookup_2, Hi).
  apply valid_state_v_elem_of in Hin as Hv. rewrite Hv.
  rewrite (getStateIndex_lookup _ i), (std_get_lookup _ i) by done.
  rewrite bind_get.
  unfold hasEnter. destruct (enter (classes NewState)); reflexivity.
Qed.

(** A returning [enterState] was given a state of the set. *)
Lemma enterState_Done NewState m m' tr :
  enterState classes States invoke NewState m = Done tt m' tr ->
  exists i, getStateIndex States NewState = Some i.
Proof.
  unfold enterState.
  destruct (valid_state_v States NewState); [|discriminate].
  destruct (getStateIndex States NewState) as [i|]; [|discriminate].
  by exists i.
Qed.

End WithInvoke.
End StateSetFacts.

(** * Facts about running user code *)

Section InterpFacts.
Context {Ty EvTy Payload Inst Host : Type} `{EqDecision Ty}.
Local Abbreviation Code := (code Ty EvTy Payload Inst Host).
Local Abbreviation Machine := (StateMachine Inst Host).
Local Abbreviation Call := (call Ty EvTy Payload).
Local Abbreviation Mon := (M Ty EvTy Payload Inst Host).
Local Open Scope fsm_scope.

Variable classes : Ty -> StateClass Ty EvTy Payload Inst Host.
Variable States : list Ty.

Local Abbreviation run := (interp classes States).

Lemma interp_O c m : run 0 c m = OutOfFuel.
Proof. reflexivity. Qed.

Lemma interp_Return fuel : run (S fuel) Return = ret tt.
Proof. reflexivity. Qed.

Lemma interp_EnterState fuel NewState k :
  run (S fuel) (EnterState NewState k)
  = (enterState classes States (run fuel) NewState ;; run (S fuel) k).
Proof. reflexivity. Qed.

Lemma interp_Process fuel Event ev k :
  run (S fuel) (Process Event ev k)
  = (process classes States (run fuel) Event ev ;; run (S fuel) k).
Proof. reflexivity. Qed.

Lemma interp_CurrentStateId fuel k :
  run (S fuel) (CurrentStateId k)
  = (i <- currentStateId ;; run (S fuel) (k i)).
Proof. reflexivity. Qed.

Lemma interp_GetState fuel State k :
  run (S fuel) (GetState State k)
  = (p <- getState States State ;; v <- load p ;; run (S fuel) (k v)).
Proof. reflexivity. Qed.

Lemma interp_SetState fuel State v k :
  run (S fuel) (SetState State v k)
  = (p <- getState States State ;; store p v ;; run (S fuel) k).
Proof. reflexivity. Qed.

Lemma interp_GetHost fuel k :
  run (S fuel) (GetHost k) = (m <- get ;; run (S fuel) (k (derived m))).
Proof. reflexivity. Qed.

Lemma interp_SetHost fuel h k :
  run (S fuel) (SetHost h k)
  = (m <- get ;; put (set_derived h m) ;; run (S fuel) k).
Proof. reflexivity. Qed.

Lemma interp_Print fuel text k :
  run (S fuel) (Print text k) = (emit (Output text) ;; run (S fuel) k).
Proof. reflexivity. Qed.

(** The accessors return without touching the machine. *)
Lemma getState_Done State p (m m' : Machine) (tr : list Call) :
  getState States State m = Done p m' tr ->
  m' = m /\ tr = [] /\ std_get State States = Some p.
Proof.
  unfold getState. destruct (valid_state_v States State); [|discriminate].
  destruct (std_get State States) as [q|]; [|discriminate].
  unfold ret. by intros [= -> -> <-].
Qed.

Lemma load_Done p v (m m' : Machine) (tr : list Call) :
  load p m = Done v m' tr -> m' = m /\ tr = [].
Proof.
  unfold load. destruct (m_states m !! p); [|discriminate].
  by intros [= _ -> <-].
Qed.

Lemma store_Done p v (m m' : Machine) (tr : list Call) :
  store p v m = Done tt m' tr ->
  m' = set_states (<[p := v]> (m_states m)) m /\ tr = []
  /\ p < length (m_states m).
Proof.
  unfold store. destruct (m_states m !! p) eqn:Hp; [|discriminate].
  apply lookup_lt_Some in Hp. by intros [= <- <-].
Qed.

(** ** Relations every operation of the machine respects *)

Section Invariant.
Variable R : Machine -> list Call -> Machine -> Prop.
Hypothesis HR : trace_invariant States R.

Section WithInvoke.
Variable invoke : Code -> Mon unit.
Hypothesis Hinvoke : forall c m m' tr, invoke c m = Done tt m' tr -> R m tr m'.

Lemma enterState_inv NewState m m' tr :
  enterState classes States invoke NewState m = Done tt m' tr -> R m tr m'.
Proof using HR Hinvoke.
  unfold enterState.
  destruct (valid_state_v States NewState); [|discriminate].
  destruct (getStateIndex States NewState) as [i|] eqn:Hi; [|discriminate].
  apply getStateIndex_Some in Hi as [Hi _].
  rewrite bind_get.
  intros (a & m1 & t1 & t2 & Hput & Hrest & ->)%bind_Done.
  injection Hput as <- <- <-.
  apply bind_Done in Hrest as (a' & m2 & t1 & t3 & Hemit & Hhook & ->).
  injection Hemit as <- <- <-. simpl.
  apply (inv_trans _ _ HR _ (set_currentState (to_unsigned (N.of_nat i)) m) _
           [Transition NewState (to_unsigned (N.of_nat i))] t3).
  { by apply (inv_transition _ _ HR). }
  destruct (hasEnter classes NewState).
  - destruct (std_get NewState States) as [pos|]; [|discriminate].
    destruct (enter (classes NewState)) as [hook|]; [|discriminate].
    apply traced_Done in Hhook as (tr' & Hrun & ->).
    apply (inv_hook _ _ HR). exact (Hinvoke _ _ _ _ Hrun).
  - injection Hhook as <- <-. apply (inv_refl _ _ HR).
Qed.

Lemma processFromState_inv State Event ev m m' tr :
  processFromState classes States invoke State Event ev m = Done tt m' tr ->
  R m tr m'.
Proof using HR Hinvoke.
  unfold processFromState. destruct (has_handler_v classes State Event).
  - destruct (std_get State States) as [pos|]; [|discriminate].
    destruct (handle (classes State) Event) as [h|]; [|discriminate].
    intros (tr' & Hrun & ->)%traced_Done.
    apply (inv_handler _ _ HR). exact (Hinvoke _ _ _ _ Hrun).
  - intros [= <- <-]. apply (inv_refl _ _ HR).
Qed.

Lemma process_inv Event ev m m' tr :
  process classes States invoke Event ev m = Done tt m' tr -> R m tr m'.
Proof using HR Hinvoke.
  rewrite process_dispatch. unfold dispatch_at_index.
  destruct (States !! N.to_nat (m_currentState m)); [|discriminate].
  apply processFromState_inv.
Qed.

End WithInvoke.

Lemma interp_inv fuel c m m' tr :
  run fuel c m = Done tt m' tr -> R m tr m'.
Proof using HR.
  revert c m m' tr. induction fuel as [|fuel IHfuel]; [discriminate |].
  induction c as [|X k IH|E ev k IH|k IH|X k IH|X v k IH|k IH|h k IH|text k IH];
    intros m m' tr.
  - rewrite interp_Return. intros [= <- <-]. apply (inv_refl _ _ HR).
  - rewrite interp_EnterState.
    intros ([] & m1 & t1 & t2 & H1 & H2 & ->)%bind_Done.
    apply (inv_trans _ _ HR _ m1); [|by apply IH].
    by apply (enterState_inv (run fuel)) in H1.
  - rewrite interp_Process.
    intros ([] & m1 & t1 & t2 & H1 & H2 & ->)%bind_Done.
    apply (inv_trans _ _ HR _ m1); [|by apply IH].
    by apply (process_inv (run fuel)) in H1.
  - rewrite interp_CurrentStateId.
    intros (i & m1 & t1 & t2 & H1 & H2 & ->)%bind_Done.
    injection H1 as <- <- <-. by apply IH in H2.
  - rewrite interp_GetState.
    intros (p & m1 & t1 & t2 & H1 & H2 & ->)%bind_Done.
    apply getState_Done in H1 as (-> & -> & _).
    apply bind_Done in H2 as (v & m2 & t3 & t4 & H2 & H3 & ->).
    apply load_Done in H2 as (-> & ->). by apply IH in H3.
  - rewrite interp_SetState.
    intros (p & m1 & t1 & t2 & H1 & H2 & ->)%bind_Done.
    apply getState_Done in H1 as (-> & -> & _).
    apply bind_Done in H2 as ([] & m2 & t3 & t4 & H2 & H3 & ->).
    apply store_Done in H2 as (-> & -> & Hp). simpl.
    apply IH in H3.
    apply (inv_trans _ _ HR _ _ _ [] t4 (inv_store _ _ HR m p v Hp) H3).
  - rewrite interp_GetHost, bind_get. apply IH.
  - rewrite interp_SetHost, bind_get.
    intros ([] & m1 & t1 & t2 & H1 & H2 & ->)%bind_Done.
    injection H1 as <- <-. simpl. apply IH in H2.
    apply (inv_trans _ _ HR _ _ _ [] t2 (inv_derived _ _ HR m h) H2).
  - rewrite interp_Print.
    intros ([] & m1 & t1 & t2 & H1 & H2 & ->)%bind_Done.
    injection H1 as <- <-. apply IH in H2.
    apply (inv_trans _ _ HR _ _ _ [Output text] t2 (inv_output _ _ HR m text) H2).
Qed.

End Invariant.
End InterpFacts.

(** * The index follows the transitions *)

Section TrackFacts.
Context {Ty EvTy Payload Inst Host : Type} `{EqDecision Ty}.
Local Abbreviation Code := (code Ty EvTy Payload Inst Host).
Local Abbreviation Machine := (StateMachine Inst Host).
Local Abbreviation Call := (call Ty EvTy Payload).
Local Abbreviation Mon := (M Ty EvTy Payload Inst Host).

Variable classes : Ty -> StateClass Ty EvTy Payload Inst Host.
Variable States : list Ty.

Lemma stores_app (t1 t2 : list Call) : stores (t1 ++ t2) = stores t1 ++ stores t2.
Proof. apply flat_map_app. Qed.

Lemma targets_app (t1 t2 : list Call) :
  targets (t1 ++ t2) = targets t1 ++ targets t2.
Proof. apply flat_map_app. Qed.

Lemma stores_single (c : Call) : stores [c] = stores_of c.
Proof. unfold stores. simpl. apply app_nil_r. Qed.

Lemma targets_single (c : Call) : targets [c] = targets_of c.
Proof. unfold targets. simpl. apply app_nil_r. Qed.

Lemma index_after_app i0 (t1 t2 : list Call) :
  index_after i0 (t1 ++ t2) = index_after (index_after i0 t1) t2.
Proof.
  unfold index_after. rewrite stores_app, last_app.
  by destruct (last (stores t2)).
Qed.

Lemma tracks_invariant :
  trace_invariant States
    (tracks (EvTy:=EvTy) (Payload:=Payload) (Inst:=Inst) (Host:=Host) States).
Proof.
  split.
  - intros m. repeat split. constructor.
  - intros m1 m2 m3 t1 t2 (Hi1 & Hs1 & Hb1) (Hi2 & Hs2 & Hb2). repeat split.
    + by rewrite index_after_app, <- Hi1.
    + rewrite targets_app, stores_app. by apply Forall2_app.
    + congruence.
  - intros m X i Hi. repeat split.
    rewrite targets_single, stores_single. simpl.
    constructor; [by exists i | constructor].
  - intros m m' X pos tr (Hi & Hs & Hb). repeat split; [| |done].
    + unfold index_after. by rewrite stores_single.
    + by rewrite targets_single, stores_single.
  - intros m m' X pos E ev tr (Hi & Hs & Hb). repeat split; [| |done].
    + unfold index_after. by rewrite stores_single.
    + by rewrite targets_single, stores_single.
  - intros m pos v Hpos. repeat split; [constructor |].
    simpl. apply length_insert.
  - intros m h. repeat split. constructor.
  - intros m text. repeat split. constructor.
Qed.

Lemma interp_tracks fuel c (m m' : Machine) (tr : list Call) :
  interp classes States fuel c m = Done tt m' tr -> tracks States m tr m'.
Proof. apply interp_inv, tracks_invariant. Qed.

Lemma enterState_tracks fuel NewState (m m' : Machine) (tr : list Call) :
  call_enterState classes States fuel NewState m = Done tt m' tr ->
  tracks States m tr m'.
Proof.
  apply (enterState_inv classes States _ tracks_invariant).
  apply interp_tracks.
Qed.

Lemma process_tracks fuel Event ev (m m' : Machine) (tr : list Call) :
  call_process classes States fuel Event ev m = Done tt m' tr ->
  tracks States m tr m'.
Proof.
  apply (process_inv classes States _ tracks_invariant).
  apply interp_tracks.
Qed.

(** The index a tracked operation leaves is the one it found or one that
    an [enterState] stored. *)
Lemma index_after_cases i0 (tr : list Call) :
  Forall2 (store_of_target States) (targets tr) (stores tr) ->
  (stores tr = [] /\ targets tr = [] /\ index_after i0 tr = i0)
  \/ (exists Y i, last (targets tr) = Some Y /\ States !! i = Some Y
                 /\ index_after i0 tr = to_unsigned (N.of_nat i)).
Proof.
  unfold index_after. intros HF.
  destruct (last (targets tr)) as [Y|] eqn:HY.
  - right. apply last_Some in HY as [ts Hts].
    rewrite Hts in HF. apply Forall2_app_inv_l in HF as (s1 & s2 & _ & H2 & ->).
    apply Forall2_cons_inv_l in H2 as (idx & s3 & (i & Hi & ->) & H3 & ->).
    apply Forall2_nil_inv_l in H3 as ->.
    exists Y, i. rewrite last_snoc. done.
  - left. apply last_None in HY. rewrite HY in HF.
    apply Forall2_nil_inv_l in HF. rewrite HF. done.
Qed.

Lemma tracks_index_range (m m' : Machine) (tr : list Call) :
  tracks States m tr m' ->
  (m_currentState m < N.of_nat (length States))%N ->
  (m_currentState m' < N.of_nat (length States))%N.
Proof.
  intros (Hi & HF & _) Hlt. rewrite Hi.
  destruct (index_after_cases (m_currentState m) tr HF)
    as [(_ & _ & ->)|(Y & i & _ & HY & ->)]; [done |].
  apply to_unsigned_lt. by apply lookup_lt_Some in HY.
Qed.

End TrackFacts.

(** * No operation of the engine runs into undefined behaviour *)

Section SafetyFacts.
Context {Ty EvTy Payload Inst Host : Type} `{EqDecision Ty}.
Local Abbreviation Code := (code Ty EvTy Payload Inst Host).
Local Abbreviation Machine := (StateMachine Inst Host).
Local Abbreviation Call := (call Ty EvTy Payload).
Local Abbreviation Mon := (M Ty EvTy Payload Inst Host).
Local Open Scope fsm_scope.

Variable classes : Ty -> StateClass Ty EvTy Payload Inst Host.
Variable States : list Ty.

Lemma bind_defined {A B} (x : Mon A) (g : A -> Mon B) m :
  x m <> Undefined ->
  (forall a m1 t1, x m = Done a m1 t1 -> g a m1 <> Undefined) ->
  bind x g m <> Undefined.
Proof.
  unfold bind. intros Hx Hg.
  destruct (x m) as [a m1 t1| | |]; try done.
  specialize (Hg a m1 t1 eq_refl). by destruct (g a m1).
Qed.

Lemma traced_defined (node : list Call -> Call) (body : Mon unit) m :
  body m <> Undefined -> traced node body m <> Undefined.
Proof. unfold traced. by destruct (body m). Qed.

Lemma tracks_represents (m m' : Machine) (tr : list Call) :
  tracks States m tr m' -> represents States m -> represents States m'.
Proof.
  intros Ht [Hi Hb]. split.
  - by eapply tracks_index_range.
  - destruct Ht as (_ & _ & ->). done.
Qed.

Section WithInvoke.
Variable invoke : Code -> Mon unit.
Hypothesis Hinvoke :
  forall c m, represents States m -> invoke c m <> Undefined.

Lemma enterState_defined NewState m :
  length (m_states m) = length States ->
  enterState classes States invoke NewState m <> Undefined.
Proof using Hinvoke.
  intros Hb. unfold enterState.
  destruct (valid_state_v States NewState); [|done].
  destruct (getStateIndex States NewState) as [i|] eqn:Hi; [|done].
  apply getStateIndex_Some in Hi as [_ Hi].
  rewrite bind_get. apply bind_defined; [done |].
  intros [] m1 t1 [= <- <-]. apply bind_defined; [done |].
  intros [] m2 t2 [= <- <-].
  destruct (hasEnter classes NewState); [|done].
  destruct (std_get NewState States) as [pos|]; [|done].
  destruct (enter (classes NewState)) as [hook|]; [|done].
  apply traced_defined, Hinvoke. split; [|done].
  simpl. by apply to_unsigned_lt.
Qed.

Lemma process_defined Event ev m :
  represents States m ->
  process classes States invoke Event ev m <> Undefined.
Proof using Hinvoke.
  intros Hm. rewrite process_dispatch. unfold dispatch_at_index.
  destruct (lookup_lt_is_Some_2 States (N.to_nat (m_currentState m)))
    as [State HS]; [destruct Hm; lia |].
  rewrite HS. unfold processFromState.
  destruct (has_handler_v classes State Event); [|done].
  destruct (std_get State States) as [pos|]; [|done].
  destruct (handle (classes State) Event) as [h|]; [|done].
  by apply traced_defined, Hinvoke.
Qed.

End WithInvoke.

Lemma interp_defined fuel c m :
  represents States m -> interp classes States fuel c m <> Undefined.
Proof.
  revert c m. induction fuel as [|fuel IHfuel]; [done |].
  induction c as [|X k IH|E ev k IH|k IH|X k IH|X v k IH|k IH|h k IH|text k IH];
    intros m Hm.
  - done.
  - rewrite interp_EnterState. apply bind_defined.
    + apply enterState_defined; [exact IHfuel | by destruct Hm].
    + intros [] m1 t1 H1. apply IH.
      eapply tracks_represents; [|exact Hm].
      eapply (enterState_tracks classes States fuel), H1.
  - rewrite interp_Process. apply bind_defined.
    + by apply process_defined.
    + intros [] m1 t1 H1. apply IH.
      eapply tracks_represents; [|exact Hm].
      eapply (process_tracks classes States fuel), H1.
  - rewrite interp_CurrentStateId. apply bind_defined; [done |].
    intros i m1 t1 [= <- <- <-]. by apply IH.
  - rewrite interp_GetState. apply bind_defined.
    + unfold getState. destruct (valid_state_v States X); [|done].
      by destruct (std_get X States).
    + intros p m1 t1 (-> & -> & Hp)%getState_Done.
      apply std_get_lt in Hp. destruct Hm as [Hi Hb].
      destruct (lookup_lt_is_Some_2 (m_states m) p) as [v Hv]; [lia |].
      apply bind_defined.
      * unfold load. by rewrite Hv.
      * intros v' m2 t2 (-> & ->)%load_Done. by apply IH.
  - rewrite interp_SetState. apply bind_defined.
    + unfold getState. destruct (valid_state_v States X); [|done].
      by destruct (std_get X States).
    + intros p m1 t1 (-> & -> & Hp)%getState_Done.
      apply std_get_lt in Hp. destruct Hm as [Hi Hb].
      destruct (lookup_lt_is_Some_2 (m_states m) p) as [v0 Hv]; [lia |].
      apply bind_defined.
      * unfold store. by rewrite Hv.
      * intros [] m2 t2 (-> & -> & _)%store_Done. apply IH.
        split; [done |]. simpl. by rewrite length_insert.
  - rewrite interp_GetHost, bind_get. by apply IH.
  - rewrite interp_SetHost, bind_get. apply bind_defined; [done |].
    intros [] m1 t1 [= <- <-]. by apply IH.
  - rewrite interp_Print. apply bind_defined; [done |].
    intros [] m1 t1 [= <- <-]. by apply IH.
Qed.

End SafetyFacts.

(** * What a returning call has done *)

Section CallFacts.
Context {Ty EvTy Payload Inst Host : Type} `{EqDecision Ty}.
Local Abbreviation Code := (code Ty EvTy Payload Inst Host).
Local Abbreviation Machine := (StateMachine Inst Host).
Local Abbreviation Call := (call Ty EvTy Payload).
Local Abbreviation Mon := (M Ty EvTy Payload Inst Host).

Variable classes : Ty -> StateClass Ty EvTy Payload Inst Host.
Variable States : list Ty.

Lemma tracks_last_target (m m' : Machine) (tr : list Call) Y :
  pack_fits States -> NoDup States ->
  tracks States m tr m' -> last (targets tr) = Some Y ->
  exists j, States !! j = Some Y /\ m_currentState m' = N.of_nat j.
Proof.
  intros Hfit Hnd (Hi & HF & _) HY.
  destruct (index_after_cases States (m_currentState m) tr HF)
    as [(_ & Ht & _)|(Y' & j & HY' & Hj & Hidx)].
  - rewrite Ht in HY. discriminate.
  - rewrite HY in HY'. injection HY' as <-. exists j. split; [done |].
    rewrite Hi, Hidx. apply (to_unsigned_index States); [done |].
    by apply lookup_lt_Some in Hj.
Qed.


(** A trace without transitions has none at its top level either. *)
Lemma own_targets_nil (tr : list Call) : targets tr = [] -> own_targets tr = [].
Proof.
  induction tr as [|c tr IH]; [done |].
  change (targets (c :: tr)) with (targets_of c ++ targets tr).
  intros [Hc Htr]%app_eq_nil. unfold own_targets. cbn [omap list_omap].
  destruct c; try discriminate Hc; by apply IH.
Qed.

(** A transition of the body itself after which no transition is made at
    any depth is the last transition of the body itself and the last one
    overall. *)
Lemma last_transition_split (pre post : list Call) Y index :
  targets post = [] ->
  last (own_targets (pre ++ Transition Y index :: post)) = Some Y
  /\ last (targets (pre ++ Transition Y index :: post)) = Some Y.
Proof.
  intros Hpost. split.
  - unfold own_targets. rewrite omap_app. cbn [omap list_omap own_target].
    fold (own_targets post). rewrite (own_targets_nil post Hpost).
    apply last_snoc.
  - rewrite targets_app.
    change (targets (Transition Y index :: post)) with (Y :: targets post).
    rewrite Hpost. apply last_snoc.
Qed.

(** The trace of a returning [enterState]: the store, then the hook if the
    state declares one. *)
Lemma enterState_resolved_Done invoke NewState i (m m' : Machine) tr :
  enterState_resolved classes invoke NewState i m = Done tt m' tr <->
  match enter (classes NewState) with
  | Some hook =>
      exists sub,
        invoke hook (set_currentState (to_unsigned (N.of_nat i)) m)
        = Done tt m' sub
        /\ tr = [Transition NewState (to_unsigned (N.of_nat i));
                 EnterHook NewState i sub]
  | None =>
      m' = set_currentState (to_unsigned (N.of_nat i)) m
      /\ tr = [Transition NewState (to_unsigned (N.of_nat i))]
  end.
Proof.
  unfold enterState_resolved, bind, put, emit, traced, ret.
  destruct (enter (classes NewState)) as [hook|].
  - destruct (invoke hook _) as [[] m1 t1| | |] eqn:Hrun; split;
      try discriminate; try (by intros (sub & [=] & _)).
    + intros [= <- <-]. by exists t1.
    + intros (sub & [= <- <-] & ->). done.
  - split.
    + by intros [= <- <-].
    + by intros [-> ->].
Qed.

End CallFacts.

(** * The bound on nesting does not change results *)

Section FuelFacts.
Context {Ty EvTy Payload Inst Host : Type} `{EqDecision Ty}.
Local Abbreviation Code := (code Ty EvTy Payload Inst Host).
Local Abbreviation Machine := (StateMachine Inst Host).
Local Abbreviation Call := (call Ty EvTy Payload).
Local Abbreviation Mon := (M Ty EvTy Payload Inst Host).

Variable classes : Ty -> StateClass Ty EvTy Payload Inst Host.
Variable States : list Ty.

Section TwoRunners.
Variables invoke1 invoke2 : Code -> Mon unit.
Hypothesis Hle : forall c m m' tr,
  invoke1 c m = Done tt m' tr -> invoke2 c m = Done tt m' tr.

Lemma traced_mono (node : list Call -> Call) c (m m' : Machine) tr :
  traced node (invoke1 c) m = Done tt m' tr ->
  traced node (invoke2 c) m = Done tt m' tr.
Proof using Hle.
  intros (sub & Hrun & ->)%traced_Done. apply traced_Done.
  exists sub. split; [by apply Hle | done].
Qed.

Lemma enterState_mono NewState (m m' : Machine) tr :
  enterState classes States invoke1 NewState m = Done tt m' tr ->
  enterState classes States invoke2 NewState m = Done tt m' tr.
Proof using Hle.
  unfold enterState.
  destruct (valid_state_v States NewState); [|done].
  destruct (getStateIndex States NewState) as [i|]; [|done].
  rewrite !bind_get.
  intros ([] & m1 & t1 & t2 & Hput & Hrest & ->)%bind_Done.
  apply bind_Done in Hrest as ([] & m2 & t3 & t4 & Hemit & Hhook & ->).
  apply bind_Done. exists tt, m1, t1, (t3 ++ t4). split; [done |].
  split; [|done]. apply bind_Done. exists tt, m2, t3, t4.
  split; [done |]. split; [|done].
  destruct (hasEnter classes NewState); [|done].
  destruct (std_get NewState States); [|done].
  destruct (enter (classes NewState)); [|done].
  by apply traced_mono.
Qed.

Lemma process_mono Event ev (m m' : Machine) tr :
  process classes States invoke1 Event ev m = Done tt m' tr ->
  process classes States invoke2 Event ev m = Done tt m' tr.
Proof using Hle.
  rewrite !process_dispatch. unfold dispatch_at_index.
  destruct (States !! N.to_nat (m_currentState m)) as [State|]; [|done].
  unfold processFromState.
  destruct (has_handler_v classes State Event); [|done].
  destruct (std_get State States); [|done].
  destruct (handle (classes State) Event); [|done].
  apply traced_mono.
Qed.

End TwoRunners.

Lemma bind_mono {A} (x x' : Mon A) (g g' : A -> Mon unit) (m m' : Machine) tr :
  (forall a m1 t1, x m = Done a m1 t1 -> x' m = Done a m1 t1) ->
  (forall a m1 t1 m2 t2,
     x m = Done a m1 t1 -> g a m1 = Done tt m2 t2 -> g' a m1 = Done tt m2 t2) ->
  bind x g m = Done tt m' tr -> bind x' g' m = Done tt m' tr.
Proof.
  intros Hx Hg (a & m1 & t1 & t2 & H1 & H2 & ->)%bind_Done.
  apply bind_Done. exists a, m1, t1, t2. split; [by apply Hx |].
  split; [by eapply Hg | done].
Qed.

(** A run that returns within a bound returns the same within a larger
    one. *)
Lemma interp_fuel_S fuel c (m m' : Machine) (tr : list Call) :
  interp classes States fuel c m = Done tt m' tr ->
  interp classes States (S fuel) c m = Done tt m' tr.
Proof.
  revert c m m' tr. induction fuel as [|fuel IHfuel]; [discriminate |].
  induction c as [|X k IH|E ev k IH|k IH|X k IH|X v k IH|k IH|h k IH|text k IH];
    intros m m' tr.
  - done.
  - rewrite !interp_EnterState. apply bind_mono.
    + intros [] m1 t1. by apply enterState_mono.
    + intros [] m1 t1 m2 t2 _. apply IH.
  - rewrite !interp_Process. apply bind_mono.
    + intros [] m1 t1. by apply process_mono.
    + intros [] m1 t1 m2 t2 _. apply IH.
  - rewrite !interp_CurrentStateId. apply bind_mono; [done |].
    intros i m1 t1 m2 t2 _. apply IH.
  - rewrite !interp_GetState. apply bind_mono; [done |].
    intros p m1 t1 m2 t2 _. apply bind_mono; [done |].
    intros v m3 t3 m4 t4 _. apply IH.
  - rewrite !interp_SetState. apply bind_mono; [done |].
    intros p m1 t1 m2 t2 _. apply bind_mono; [done |].
    intros [] m3 t3 m4 t4 _. apply IH.
  - rewrite !interp_GetHost, !bind_get. apply IH.
  - rewrite !interp_SetHost, !bind_get. apply bind_mono; [done |].
    intros [] m1 t1 m2 t2 _. apply IH.
  - rewrite !interp_Print. apply bind_mono; [done |].
    intros [] m1 t1 m2 t2 _. apply IH.
Qed.

Lemma interp_fuel_le fuel fuel' c (m m' : Machine) (tr : list Call) :
  fuel <= fuel' ->
  interp classes States fuel c m = Done tt m' tr ->
  interp classes States fuel' c m = Done tt m' tr.
Proof.
  induction 1 as [|fuel' _ IH]; [done |].
  intros Hrun. by apply interp_fuel_S, IH.
Qed.

End FuelFacts.

(** * Properties of the engine *)

(** ** Type-list predicates *)

(** The static assertions of the header, with [int], [bool] and [double]
    written 1, 2 and 3. *)
Example static_asserts_elem_in_list_v :
  details.elem_in_list_v 1 [1; 2] = true
  /\ details.elem_in_list_v 1 [1] = true
  /\ details.elem_in_list_v 1 [2; 1] = true
  /\ details.elem_in_list_v 3 [1; 2] = false.
Proof. repeat split. Qed.

Example static_asserts_are_distinct_v :
  details.are_distinct_v [1; 1; 2] = false
  /\ details.are_distinct_v [1; 2; 1] = false
  /\ details.are_distinct_v [1] = true
  /\ details.are_distinct_v [1; 2; 3] = true.
Proof. repeat split. Qed.

(** C9.  The type-list predicates meet their reference definitions.  For
    every type [Elem] and every list [L] of types, [elem_in_list_v] is true
    iff [Elem] is identical to some entry of [L]; and when the size of [L]
    is representable in [unsigned], the type the count is computed in (as
    it is for every pack an implementation can instantiate),
    [count_in_list_v] is the number of entries of [L] equal to [Elem], and
    [are_distinct_v] is true iff every entry of [L] occurs in [L] exactly
    once. *)
Theorem type_list_predicates_meet_reference
    {Ty : Type} `{EqDecision Ty} (Elem : Ty) (L : list Ty) :
  (details.elem_in_list_v Elem L = true <-> exists T, T ∈ L /\ Elem = T)
  /\ (pack_fits L ->
      details.count_in_list_v Elem L = N.of_nat (occurrences Elem L)
      /\ (details.are_distinct_v L = true
          <-> forall T, T ∈ L -> occurrences T L = 1)).
Proof.
  split.
  - rewrite elem_in_list_v_elem_of. split.
    + intros Hin. by exists Elem.
    + by intros (T & Hin & ->).
  - intros Hfit. split.
    + by apply count_in_list_v_occurrences.
    + by apply are_distinct_v_occurrences.
Qed.

Lemma type_list_predicates_meet_reference_witness :
  pack_fits ex2.States
  /\ details.count_in_list_v ex2.CloseState ex2.States
     = N.of_nat (occurrences ex2.CloseState ex2.States)
  /\ (details.are_distinct_v ex2.States = true
      <-> forall T, T ∈ ex2.States -> occurrences T ex2.States = 1).
Proof.
  split.
  - vm_compute. reflexivity.
  - apply (type_list_predicates_meet_reference ex2.CloseState ex2.States).
    vm_compute. reflexivity.
Defined.

(** ** The type-to-index mapping *)

(** C10.  On a valid state set the type-to-index and the index-to-type
    mappings are inverse to each other: for a state [S] of the set,
    [getStateIndex<S>()] is the one position [i] whose tuple element is [S];
    every position of the tuple maps back to itself through its type;
    [std::get<S>] and [getState<S>()] resolve to the instance at [i]; and
    for [i] in the range of [uint16_t], the type of the template parameter
    of [processFromIndex] (the header instantiates it from the case labels
    0 to 255 only), the dispatch step for index [i] is the dispatch step of
    [S], which calls the handler on the instance at [i]. *)
Theorem index_type_round_trip
    {Ty EvTy Payload Inst Host : Type} `{EqDecision Ty}
    (classes : Ty -> StateClass Ty EvTy Payload Inst Host)
    (States : list Ty) (S : Ty) :
  valid_state_set classes States -> S ∈ States ->
  exists i,
    getStateIndex States S = Some i
    /\ tuple_element_t i States = Some S
    /\ (forall j, tuple_element_t j States = Some S -> j = i)
    /\ (forall j T, tuple_element_t j States = Some T ->
                    getStateIndex States T = Some j)
    /\ std_get S States = Some i
    /\ (forall m : StateMachine Inst Host,
          getState (Ty:=Ty) (EvTy:=EvTy) (Payload:=Payload) States S m
          = Done i m [])
    /\ ((N.of_nat i < 2 ^ 16)%N ->
        forall invoke Event ev,
          processFromIndex classes States invoke (N.of_nat i) Event ev
          = processFromState classes States invoke S Event ev)
    /\ (forall invoke Event ev h,
          handle (classes S) Event = Some h ->
          processFromState classes States invoke S Event ev
          = traced (Handler S i Event ev) (invoke (h ev))).
Proof.
  intros Hvalid Hin.
  pose proof (valid_state_set_NoDup _ _ Hvalid) as Hnd.
  apply list_elem_of_lookup_1 in Hin as Hi. destruct Hi as [i Hi].
  exists i. unfold tuple_element_t. repeat split.
  - by apply getStateIndex_lookup.
  - done.
  - intros j Hj. by eapply NoDup_lookup.
  - intros j T Hj. by apply getStateIndex_lookup.
  - by apply std_get_lookup.
  - intros m. unfold getState.
    apply valid_state_v_elem_of in Hin as ->.
    by rewrite (std_get_lookup _ _ i).
  - intros Hfit invoke Event ev. apply processFromIndex_lookup; [done |].
    by rewrite Nat2N.id.
  - intros invoke Event ev h Hh. by apply processFromState_handler.
Qed.

Lemma index_type_round_trip_witness :
  valid_state_set ex2.classes ex2.States
  /\ ex2.LockedState ∈ ex2.States
  /\ (N.of_nat 2 < 2 ^ 16)%N
  /\ getStateIndex ex2.States ex2.LockedState = Some 2
  /\ tuple_element_t 2 ex2.States = Some ex2.LockedState
  /\ std_get ex2.LockedState ex2.States = Some 2
  /\ (forall invoke Event ev,
        processFromIndex ex2.classes ex2.States invoke (N.of_nat 2) Event ev
        = processFromState ex2.classes ex2.States invoke ex2.LockedState
            Event ev).
Proof.
  assert (Hvalid : valid_state_set ex2.classes ex2.States)
    by (split; vm_compute; reflexivity).
  assert (Hin : ex2.LockedState ∈ ex2.States)
    by (apply elem_in_list_v_elem_of; vm_compute; reflexivity).
  assert (Hfit : (N.of_nat 2 < 2 ^ 16)%N) by (vm_compute; reflexivity).
  split; [exact Hvalid |]. split; [exact Hin |]. split; [exact Hfit |].
  destruct (index_type_round_trip ex2.classes ex2.States ex2.LockedState
              Hvalid Hin) as (i & H1 & H2 & _ & _ & H5 & _ & H7 & _).
  assert (Hi : i = 2).
  { vm_compute in H1. by injection H1 as <-. }
  subst i. split; [exact H1 |]. split; [exact H2 |]. split; [exact H5 |].
  exact (H7 Hfit).
Defined.

(** ** Dispatch *)

(** C1.  On a valid state set, with the current-state index equal to the
    ordinal [i] of the state [S], [process(ev)] is one call of [S]'s
    [handle] for the event type, on the instance of [S] and with the event
    value [ev], run on the machine itself and to completion inside
    [process], if [has_handler_v<S, Event>] holds, and returns at once
    without any call otherwise.  So the handler calls [process] makes
    itself are exactly one call of the active state's handler when it has
    one and none when it has not, and never a call of another state's
    handler. *)
Theorem process_invokes_active_handler
    {Ty EvTy Payload Inst Host : Type} `{EqDecision Ty}
    (classes : Ty -> StateClass Ty EvTy Payload Inst Host)
    (States : list Ty) (S : Ty) (i : nat) (Event : EvTy) (ev : Payload)
    (fuel : nat) (m : StateMachine Inst Host) :
  valid_state_set classes States ->
  States !! i = Some S ->
  m_currentState m = N.of_nat i ->
  call_process classes States fuel Event ev m
  = match handle (classes S) Event with
    | Some h =>
        traced (Handler S i Event ev) (interp classes States fuel (h ev)) m
    | None => Done tt m []
    end
  /\ (forall m' tr,
        call_process classes States fuel Event ev m = Done tt m' tr ->
        direct_handlers tr
        = if has_handler_v classes S Event then [(S, i, Event, ev)] else []).
Proof.
  intros Hvalid Hi Hidx.
  pose proof (valid_state_set_NoDup _ _ Hvalid) as Hnd.
  assert (Heq : call_process classes States fuel Event ev m
    = match handle (classes S) Event with
      | Some h =>
          traced (Handler S i Event ev) (interp classes States fuel (h ev)) m
      | None => Done tt m []
      end).
  { unfold call_process. rewrite process_dispatch. unfold dispatch_at_index.
    rewrite Hidx, Nat2N.id, Hi.
    destruct (handle (classes S) Event) as [h|] eqn:Hh.
    - by rewrite (processFromState_handler _ _ _ _ i _ _ h).
    - by apply processFromState_no_handler. }
  split; [exact Heq |].
  intros m' tr. rewrite Heq. unfold has_handler_v.
  destruct (handle (classes S) Event) as [h|].
  - intros (sub & _ & ->)%traced_Done. reflexivity.
  - by intros [= <- <-].
Qed.

Lemma process_invokes_active_handler_witness :
  valid_state_set ex2.classes ex2.States
  /\ ex2.States !! 1 = Some ex2.CloseState
  /\ m_currentState (ex2.fsm 1) = N.of_nat 1
  /\ forall m' tr,
       call_process ex2.classes ex2.States 2 ex2.LockEvent 123%N (ex2.fsm 1)
       = Done tt m' tr ->
       direct_handlers tr = [(ex2.CloseState, 1, ex2.LockEvent, 123%N)].
Proof.
  split; [split; vm_compute; reflexivity |].
  split; [reflexivity |]. split; [reflexivity |].
  apply (process_invokes_active_handler ex2.classes ex2.States ex2.CloseState
           1 ex2.LockEvent 123%N 2 (ex2.fsm 1)).
  - split; vm_compute; reflexivity.
  - reflexivity.
  - reflexivity.
Defined.

(** C3.  On a valid state set, with the current-state index that of the
    state [S]: when [S] defines no handler for the event type, [process]
    returns, whatever the bound on nesting, with the machine exactly as it
    was (the index and every state instance unchanged) and without having
    called anything.  Every [process] call is either that or the whole run
    of the one handler, and every [enterState] call is the store of the
    index followed by the whole run of the enter hook, if there is one. *)
Theorem unmatched_event_has_no_effect
    {Ty EvTy Payload Inst Host : Type} `{EqDecision Ty}
    (classes : Ty -> StateClass Ty EvTy Payload Inst Host)
    (States : list Ty) (S : Ty) (i : nat) (Event : EvTy) (ev : Payload)
    (fuel : nat) (m : StateMachine Inst Host) :
  valid_state_set classes States ->
  States !! i = Some S ->
  m_currentState m = N.of_nat i ->
  (has_handler_v classes S Event = false ->
   call_process classes States fuel Event ev m = Done tt m [])
  /\ (call_process classes States fuel Event ev m = Done tt m []
      \/ exists h,
           handle (classes S) Event = Some h
           /\ call_process classes States fuel Event ev m
              = traced (Handler S i Event ev)
                       (interp classes States fuel (h ev)) m)
  /\ (forall NewState j (m0 : StateMachine Inst Host),
        States !! j = Some NewState ->
        call_enterState classes States fuel NewState m0
        = enterState_resolved classes (interp classes States fuel)
                              NewState j m0).
Proof.
  intros Hvalid Hi Hidx.
  pose proof (valid_state_set_NoDup _ _ Hvalid) as Hnd.
  assert (Hdisp : call_process classes States fuel Event ev m
    = processFromState classes States (interp classes States fuel)
                       S Event ev m).
  { unfold call_process. rewrite process_dispatch. unfold dispatch_at_index.
    by rewrite Hidx, Nat2N.id, Hi. }
  split; [|split].
  - unfold has_handler_v. intros Hno. rewrite Hdisp.
    apply processFromState_no_handler.
    by destruct (handle (classes S) Event).
  - rewrite Hdisp. destruct (handle (classes S) Event) as [h|] eqn:Hh.
    + right. exists h. split; [done |].
      by rewrite (processFromState_handler _ _ _ _ i _ _ h).
    + left. by apply processFromState_no_handler.
  - intros NewState j m0 Hj. by apply enterState_lookup.
Qed.

Lemma unmatched_event_has_no_effect_witness :
  valid_state_set ex1.classes ex1.States
  /\ ex1.States !! 1 = Some ex1.CloseState
  /\ has_handler_v ex1.classes ex1.CloseState ex1.CloseEvent = false
  /\ call_process ex1.classes ex1.States 0 ex1.CloseEvent tt
       {| m_currentState := 1; m_states := [tt; tt]; derived := tt |}
     = Done tt {| m_currentState := 1; m_states := [tt; tt]; derived := tt |} [].
Proof.
  split; [split; vm_compute; reflexivity |].
  split; [reflexivity |]. split; [reflexivity |].
  apply (unmatched_event_has_no_effect ex1.classes ex1.States ex1.CloseState
           1 ex1.CloseEvent tt 0).
  - split; vm_compute; reflexivity.
  - reflexivity.
  - reflexivity.
  - reflexivity.
Defined.

(** ** The two dispatch strategies *)

Section StrategyFacts.
Context {Ty EvTy Payload Inst Host : Type} `{EqDecision Ty}.
Local Abbreviation Code := (code Ty EvTy Payload Inst Host).
Local Abbreviation Mon := (M Ty EvTy Payload Inst Host).
Local Abbreviation Case := (case_stmt (Ty:=Ty) (EvTy:=EvTy) (Payload:=Payload) (Inst:=Inst) (Host:=Host)).

Variable classes : Ty -> StateClass Ty EvTy Payload Inst Host.
Variable States : list Ty.
Variable invoke : Code -> Mon unit.

(** With the operand below the number of states, the generated switch
    selects the case labelled by the operand, whose guard holds. *)
Lemma switch_hits_case
    (dispatcher : N -> (N -> Case) -> list Case) (bound : nat) Event ev v :
  (forall X, dispatcher 0%N X = map X (labels 0 bound)) ->
  length States <= bound -> bound <= 256 ->
  (v < N.of_nat (length States))%N ->
  switch v (dispatcher 0%N (_TINIEST_FSM_CASE classes States invoke Event ev))
         _TINIEST_FSM_UNREACHABLE
  = processFromIndex classes States invoke v Event ev.
Proof.
  intros Hexp Hn Hb Hv. rewrite Hexp, switch_labels by done.
  replace (0 <=? v)%N with true by (symmetry; apply N.leb_le; lia).
  replace (v <? 0 + N.of_nat bound)%N with true
    by (symmetry; apply N.ltb_lt; lia).
  cbn [andb snd _TINIEST_FSM_CASE]. unfold s_nStates.
  replace (v <? N.of_nat (length States))%N with true
    by (symmetry; by apply N.ltb_lt).
  done.
Qed.

End StrategyFacts.

(** C4.  The switch strategy and the table strategy give the same result
    (the same calls, the same machine afterwards, or both undefined when
    the index is not that of a state): each of the four generated switches
    agrees with the function table on every state set it is used for, for
    every index and every event; and [process], whichever strategy it
    selects for the number of states, gives the result of the table. *)
Theorem strategies_are_equivalent
    {Ty EvTy Payload Inst Host : Type} `{EqDecision Ty}
    (classes : Ty -> StateClass Ty EvTy Payload Inst Host)
    (States : list Ty)
    (invoke : code Ty EvTy Payload Inst Host -> M Ty EvTy Payload Inst Host unit)
    (Event : EvTy) (ev : Payload) (m : StateMachine Inst Host) :
  (length States <= 4 ->
   _TINIEST_FSM_DISPATCH_IMPL classes States invoke
     _TINIEST_FSM_DISPATCH_4 Event ev m
   = process_table classes States invoke Event ev m)
  /\ (length States <= 16 ->
      _TINIEST_FSM_DISPATCH_IMPL classes States invoke
        _TINIEST_FSM_DISPATCH_16 Event ev m
      = process_table classes States invoke Event ev m)
  /\ (length States <= 64 ->
      _TINIEST_FSM_DISPATCH_IMPL classes States invoke
        _TINIEST_FSM_DISPATCH_64 Event ev m
      = process_table classes States invoke Event ev m)
  /\ (length States <= 256 ->
      _TINIEST_FSM_DISPATCH_IMPL classes States invoke
        _TINIEST_FSM_DISPATCH_256 Event ev m
      = process_table classes States invoke Event ev m)
  /\ process classes States invoke Event ev m
     = process_table classes States invoke Event ev m
  /\ (256 < length States ->
      process classes States invoke = process_table classes States invoke)
  /\ (length States <= 256 ->
      exists dispatcher bound,
        length States <= bound
        /\ (forall X, dispatcher 0%N X = map X (labels 0 bound))
        /\ process classes States invoke
           = _TINIEST_FSM_DISPATCH_IMPL classes States invoke dispatcher).
Proof.
  rewrite process_table_dispatch. repeat split.
  - intros Hn.
    apply (DISPATCH_IMPL_dispatch _ _ _ _ 4); [apply DISPATCH_4_labels | lia | lia].
  - intros Hn.
    apply (DISPATCH_IMPL_dispatch _ _ _ _ 16); [apply DISPATCH_16_labels | lia | lia].
  - intros Hn.
    apply (DISPATCH_IMPL_dispatch _ _ _ _ 64); [apply DISPATCH_64_labels | lia | lia].
  - intros Hn.
    apply (DISPATCH_IMPL_dispatch _ _ _ _ 256); [apply DISPATCH_256_labels | lia | lia].
  - apply process_dispatch.
  - intros Hn. unfold process, s_nStates.
    by repeat (rewrite (proj2 (Nat.leb_gt _ _)) by lia).
  - intros Hn. unfold process, s_nStates.
    destruct (length States <=? 4) eqn:H4.
    { apply Nat.leb_le in H4.
      exists _TINIEST_FSM_DISPATCH_4, 4. split; [done |]. split; [|done].
      apply DISPATCH_4_labels. }
    destruct (length States <=? 16) eqn:H16.
    { apply Nat.leb_le in H16.
      exists _TINIEST_FSM_DISPATCH_16, 16. split; [done |]. split; [|done].
      apply DISPATCH_16_labels. }
    destruct (length States <=? 64) eqn:H64.
    { apply Nat.leb_le in H64.
      exists _TINIEST_FSM_DISPATCH_64, 64. split; [done |]. split; [|done].
      apply DISPATCH_64_labels. }
    apply Nat.leb_le in Hn as H256. rewrite H256.
    exists _TINIEST_FSM_DISPATCH_256, 256. split; [done |]. split; [|done].
    apply DISPATCH_256_labels.
Qed.

Lemma strategies_are_equivalent_witness :
  length ex2.States <= 4
  /\ _TINIEST_FSM_DISPATCH_IMPL ex2.classes ex2.States
       (interp ex2.classes ex2.States 1)
       _TINIEST_FSM_DISPATCH_4 ex2.LockEvent 123%N (ex2.fsm 1)
     = process_table ex2.classes ex2.States (interp ex2.classes ex2.States 1)
         ex2.LockEvent 123%N (ex2.fsm 1).
Proof.
  split.
  - simpl. lia.
  - destruct (strategies_are_equivalent ex2.classes ex2.States
                (interp ex2.classes ex2.States 1) ex2.LockEvent 123%N
                (ex2.fsm 1)) as (Hswitch4 & _).
    apply Hswitch4. simpl. lia.
Defined.

(** With 300 states [process] takes the table branch and dispatches as the
    small machines do; a 256-case switch would not cover index 280. *)
Example large_state_count_scenario :
  (match call_process many.classes many.States 1 tt tt (many.machine 280) with
   | Done _ m' tr =>
       Some (m_currentState m', direct_handlers tr)
   | _ => None
   end) = Some (281%N, [(280, 280, tt, tt)])
  /\ _TINIEST_FSM_DISPATCH_IMPL many.classes many.States
       (interp many.classes many.States 1)
       _TINIEST_FSM_DISPATCH_256 tt tt (many.machine 280)
     = Undefined.
Proof. split; vm_compute; reflexivity. Qed.

(** C7.  With the current-state index below the number of states,
    dispatch is defined: each generated switch, on a state set it is used
    for, selects the case of the index, whose guard holds, and never a
    padded case or the default; the function table has an entry at the
    index; [process] is the dispatch step of the state at the index; and
    with one instance per state in the bank no call of [process] runs into
    undefined behaviour, however deep the handlers nest. *)
Theorem dispatch_in_range_is_defined
    {Ty EvTy Payload Inst Host : Type} `{EqDecision Ty}
    (classes : Ty -> StateClass Ty EvTy Payload Inst Host)
    (States : list Ty)
    (invoke : code Ty EvTy Payload Inst Host -> M Ty EvTy Payload Inst Host unit)
    (Event : EvTy) (ev : Payload) (m : StateMachine Inst Host) :
  (m_currentState m < N.of_nat (length States))%N ->
  (length States <= 4 ->
   switch (m_currentState m)
     (_TINIEST_FSM_DISPATCH_4 0%N
        (_TINIEST_FSM_CASE classes States invoke Event ev))
     _TINIEST_FSM_UNREACHABLE
   = processFromIndex classes States invoke (m_currentState m) Event ev)
  /\ (length States <= 16 ->
      switch (m_currentState m)
        (_TINIEST_FSM_DISPATCH_16 0%N
           (_TINIEST_FSM_CASE classes States invoke Event ev))
        _TINIEST_FSM_UNREACHABLE
      = processFromIndex classes States invoke (m_currentState m) Event ev)
  /\ (length States <= 64 ->
      switch (m_currentState m)
        (_TINIEST_FSM_DISPATCH_64 0%N
           (_TINIEST_FSM_CASE classes States invoke Event ev))
        _TINIEST_FSM_UNREACHABLE
      = processFromIndex classes States invoke (m_currentState m) Event ev)
  /\ (length States <= 256 ->
      switch (m_currentState m)
        (_TINIEST_FSM_DISPATCH_256 0%N
           (_TINIEST_FSM_CASE classes States invoke Event ev))
        _TINIEST_FSM_UNREACHABLE
      = processFromIndex classes States invoke (m_currentState m) Event ev)
  /\ N.to_nat (m_currentState m) < length (f classes States invoke Event)
  /\ (exists State,
        States !! N.to_nat (m_currentState m) = Some State
        /\ process classes States invoke Event ev m
           = processFromState classes States invoke State Event ev m)
  /\ (forall fuel,
        length (m_states m) = length States ->
        call_process classes States fuel Event ev m <> Undefined).
Proof.
  intros Hidx. repeat split.
  - intros Hn.
    apply (switch_hits_case _ _ _ _ 4); [apply DISPATCH_4_labels | lia..| done].
  - intros Hn.
    apply (switch_hits_case _ _ _ _ 16); [apply DISPATCH_16_labels | lia..| done].
  - intros Hn.
    apply (switch_hits_case _ _ _ _ 64); [apply DISPATCH_64_labels | lia..| done].
  - intros Hn.
    apply (switch_hits_case _ _ _ _ 256); [apply DISPATCH_256_labels | lia..| done].
  - rewrite length_f. lia.
  - destruct (lookup_lt_is_Some_2 States (N.to_nat (m_currentState m)))
      as [State HS]; [lia |].
    exists State. split; [done |].
    rewrite process_dispatch. unfold dispatch_at_index. by rewrite HS.
  - intros fuel Hbank. apply process_defined.
    + intros c m0 Hm0. by apply interp_defined.
    + by split.
Qed.

Lemma dispatch_in_range_is_defined_witness :
  (m_currentState (ex2.fsm 2) < N.of_nat (length ex2.States))%N
  /\ length ex2.States <= 4
  /\ switch (m_currentState (ex2.fsm 2))
       (_TINIEST_FSM_DISPATCH_4 0%N
          (_TINIEST_FSM_CASE ex2.classes ex2.States
             (interp ex2.classes ex2.States 1) ex2.UnlockEvent 123%N))
       _TINIEST_FSM_UNREACHABLE
     = processFromIndex ex2.classes ex2.States
         (interp ex2.classes ex2.States 1) (m_currentState (ex2.fsm 2))
         ex2.UnlockEvent 123%N.
Proof.
  split; [vm_compute; reflexivity |]. split; [simpl; lia |].
  destruct (dispatch_in_range_is_defined ex2.classes ex2.States
              (interp ex2.classes ex2.States 1) ex2.UnlockEvent 123%N
              (ex2.fsm 2)) as (Hswitch4 & _).
  - vm_compute. reflexivity.
  - apply Hswitch4. simpl. lia.
Defined.

(** ** Transitions *)

Section TransitionFacts.
Context {Ty EvTy Payload Inst Host : Type} `{EqDecision Ty}.
Local Abbreviation Code := (code Ty EvTy Payload Inst Host).
Local Abbreviation Machine := (StateMachine Inst Host).
Local Abbreviation Call := (call Ty EvTy Payload).
Local Abbreviation Mon := (M Ty EvTy Payload Inst Host).

Variable classes : Ty -> StateClass Ty EvTy Payload Inst Host.
Variable States : list Ty.

(** A returning [enterState] begins with its store. *)
Lemma enterState_Done_head (invoke : Code -> Mon unit) NewState
    (m m' : Machine) (tr : list Call) :
  enterState classes States invoke NewState m = Done tt m' tr ->
  exists i rest,
    States !! i = Some NewState
    /\ tr = Transition NewState (to_unsigned (N.of_nat i)) :: rest.
Proof.
  unfold enterState.
  destruct (valid_state_v States NewState); [|discriminate].
  destruct (getStateIndex States NewState) as [i|] eqn:Hi; [|discriminate].
  apply getStateIndex_Some in Hi as [Hi _]. rewrite bind_get.
  intros ([] & m1 & t1 & t2 & [= <- <-] & Hrest & ->)%bind_Done.
  apply bind_Done in Hrest as ([] & m2 & t3 & t4 & [= <- <-] & _ & ->).
  by exists i, t4.
Qed.

(** After [enterState] the index is that of a state, whatever it was. *)
Lemma enterState_establishes_range fuel NewState (m m' : Machine)
    (tr : list Call) :
  call_enterState classes States fuel NewState m = Done tt m' tr ->
  (m_currentState m' < N.of_nat (length States))%N.
Proof.
  intros Hrun.
  pose proof (enterState_tracks _ _ _ _ _ _ _ Hrun) as (Hi & HF & _).
  apply enterState_Done_head in Hrun as (i & rest & _ & ->).
  destruct (index_after_cases States (m_currentState m) _ HF)
    as [(Hs & _)|(Y & j & _ & HY & Hidx)].
  - discriminate Hs.
  - rewrite Hi, Hidx. apply to_unsigned_lt. by apply lookup_lt_Some in HY.
Qed.

(** [process] with the index at a state: the call of its handler, or
    nothing. *)
Lemma process_at_state S i Event ev fuel (m : Machine) :
  NoDup States -> States !! i = Some S -> m_currentState m = N.of_nat i ->
  (exists h,
     handle (classes S) Event = Some h
     /\ call_process classes States fuel Event ev m
        = traced (Handler S i Event ev) (interp classes States fuel (h ev)) m)
  \/ (handle (classes S) Event = None
      /\ call_process classes States fuel Event ev m = Done tt m []).
Proof.
  intros Hnd Hi Hidx. unfold call_process.
  rewrite process_dispatch. unfold dispatch_at_index.
  rewrite Hidx, Nat2N.id, Hi.
  destruct (handle (classes S) Event) as [h|] eqn:Hh.
  - left. exists h. split; [done |].
    by rewrite (processFromState_handler _ _ _ _ i _ _ h).
  - right. split; [done |]. by apply processFromState_no_handler.
Qed.

End TransitionFacts.

(** The scenario of [ex1.cpp]: the door ends open, having closed once and
    ignored the second [CloseEvent]. *)
Example door_scenario :
  exists tr,
    interp ex1.classes ex1.States 2 ex1.main ex1.door
    = Done tt {| m_currentState := 0; m_states := [tt; tt]; derived := tt |} tr
    /\ targets tr = [ex1.OpenState; ex1.CloseState; ex1.OpenState]
    /\ direct_handlers tr
       = [(ex1.OpenState, 0, ex1.CloseEvent, tt);
          (ex1.CloseState, 1, ex1.OpenEvent, tt)].
Proof. eexists. split; [vm_compute; reflexivity |]. split; reflexivity. Qed.

(** The scenario of the lockable door, key 123: the wrong key leaves the
    state where it was. *)
Example lockable_door_scenario :
  exists tr,
    interp ex2.classes ex2.States 2 ex2.main (ex2.fsm 7)
    = Done tt (ex2.fsm 1) tr
    /\ targets tr
       = [ex2.OpenState; ex2.CloseState; ex2.OpenState; ex2.CloseState;
          ex2.LockedState; ex2.CloseState].
Proof. eexists. split; [vm_compute; reflexivity |]. reflexivity. Qed.

(** C5.  On a valid state set, [enterState<X>()] for the state [X] at
    ordinal [i] stores the index and then calls [X]'s enter hook, on the
    instance of [X], once if [X] declares one and not at all otherwise (in
    which case it always returns); the calls [enterState] makes itself
    include no enter hook of another state and no handler at all, so
    nothing of the state that is left is called. *)
Theorem enterState_calls_own_hook_once
    {Ty EvTy Payload Inst Host : Type} `{EqDecision Ty}
    (classes : Ty -> StateClass Ty EvTy Payload Inst Host)
    (States : list Ty) (X : Ty) (i : nat) (fuel : nat)
    (m : StateMachine Inst Host) :
  valid_state_set classes States ->
  States !! i = Some X ->
  call_enterState classes States fuel X m
  = enterState_resolved classes (interp classes States fuel) X i m
  /\ (hasEnter classes X = false ->
      call_enterState classes States fuel X m
      = Done tt (set_currentState (N.of_nat i) m) [Transition X (N.of_nat i)])
  /\ (forall m' tr,
        call_enterState classes States fuel X m = Done tt m' tr ->
        direct_hooks tr = (if hasEnter classes X then [(X, i)] else [])
        /\ direct_handlers tr = []).
Proof.
  intros Hvalid Hi.
  pose proof (valid_state_set_NoDup _ _ Hvalid) as Hnd.
  assert (Heq : call_enterState classes States fuel X m
    = enterState_resolved classes (interp classes States fuel) X i m)
    by (by apply enterState_lookup).
  assert (Hu : to_unsigned (N.of_nat i) = N.of_nat i).
  { apply (to_unsigned_index States); [by destruct Hvalid |].
    by apply lookup_lt_Some in Hi. }
  split; [exact Heq |]. split.
  - intros Hno. rewrite Heq. apply enterState_resolved_Done.
    unfold hasEnter in Hno. destruct (enter (classes X)); [done |].
    by rewrite Hu.
  - intros m' tr. rewrite Heq.
    intros Hdone%enterState_resolved_Done. unfold hasEnter.
    destruct (enter (classes X)) as [hook|].
    + destruct Hdone as (sub & _ & ->). done.
    + destruct Hdone as (_ & ->). done.
Qed.

Lemma enterState_calls_own_hook_once_witness :
  valid_state_set hooked.classes hooked.States
  /\ hooked.States !! 1 = Some hooked.Running
  /\ exists m' tr,
       call_enterState hooked.classes hooked.States 1 hooked.Running
         (hooked.machine 0) = Done tt m' tr
       /\ direct_hooks tr = [(hooked.Running, 1)]
       /\ direct_handlers tr = [].
Proof.
  split; [split; vm_compute; reflexivity |]. split; [reflexivity |].
  eexists _, _. split; [vm_compute; reflexivity |].
  destruct (enterState_calls_own_hook_once hooked.classes hooked.States
              hooked.Running 1 1 (hooked.machine 0)) as (_ & _ & Hcalls).
  - split; vm_compute; reflexivity.
  - reflexivity.
  - eapply Hcalls. vm_compute. reflexivity.
Defined.

(** C6, as stated, fails: the handler of [Running] for [Tick] calls
    [enterState<Starting>()] as its only, hence last, transition; the
    enter hook of [Starting] moves on to [Running], and when [process]
    returns the current state is [Running], not [Starting]. *)
Lemma handler_own_transition_counterexample :
  valid_state_set hooked.classes hooked.States
  /\ hooked.States !! 1 = Some hooked.Running
  /\ handle (hooked.classes hooked.Running) hooked.Tick
     = Some (fun _ => EnterState hooked.Starting Return)
  /\ getStateIndex hooked.States hooked.Starting = Some 0
  /\ exists m' sub,
       call_process hooked.classes hooked.States 3 hooked.Tick tt
         (hooked.machine 1)
       = Done tt m' [Handler hooked.Running 1 hooked.Tick tt sub]
       /\ own_targets sub = [hooked.Starting]
       /\ currentStateId (Ty:=hooked.state) (EvTy:=hooked.event)
            (Payload:=unit) m'
          = Done 1%N m' []
       /\ m_currentState m' <> N.of_nat 0.
Proof.
  split; [split; vm_compute; reflexivity |]. split; [reflexivity |].
  split; [reflexivity |]. split; [reflexivity |].
  eexists _, _. split; [vm_compute; reflexivity |].
  split; [reflexivity |]. split; [reflexivity |]. discriminate.
Qed.

(** C6, amended.  On a valid state set, a returning [process(ev)] is the
    one call of the handler of the active state [S] (or nothing), and the
    current state afterwards is the target of the last transition made
    while that handler ran, whoever made it: nested transitions run in
    call order and [process] stores nothing into the index itself.  So if
    the handler itself calls [enterState<Y>()] and no transition is made
    after that call (not by the enter hook of [Y], not by the handler, not
    by a handler of an event it dispatches), that call is the handler's
    last transition and [currentStateId()] is the ordinal of [Y] when
    [process] returns. *)
Theorem handler_transition_is_final
    {Ty EvTy Payload Inst Host : Type} `{EqDecision Ty}
    (classes : Ty -> StateClass Ty EvTy Payload Inst Host)
    (States : list Ty) (S : Ty) (i : nat) (Event : EvTy) (ev : Payload)
    (fuel : nat) (m m' : StateMachine Inst Host)
    (tr : list (call Ty EvTy Payload)) :
  valid_state_set classes States ->
  States !! i = Some S ->
  m_currentState m = N.of_nat i ->
  call_process classes States fuel Event ev m = Done tt m' tr ->
  (handle (classes S) Event = None /\ tr = [] /\ m' = m
   \/ exists h sub,
        handle (classes S) Event = Some h
        /\ interp classes States fuel (h ev) m = Done tt m' sub
        /\ tr = [Handler S i Event ev sub])
  /\ (forall Y,
        last (targets tr) = Some Y ->
        exists j,
          getStateIndex States Y = Some j
          /\ currentStateId (Ty:=Ty) (EvTy:=EvTy) (Payload:=Payload) m'
             = Done (N.of_nat j) m' [])
  /\ (forall Y sub pre index post,
        tr = [Handler S i Event ev sub] ->
        sub = pre ++ Transition Y index :: post ->
        targets post = [] ->
        last (own_targets sub) = Some Y
        /\ exists j,
             getStateIndex States Y = Some j
             /\ currentStateId (Ty:=Ty) (EvTy:=EvTy) (Payload:=Payload) m'
                = Done (N.of_nat j) m' []).
Proof.
  intros Hvalid Hi Hidx Hrun.
  pose proof (valid_state_set_NoDup _ _ Hvalid) as Hnd.
  assert (Hlast : forall Y,
    last (targets tr) = Some Y ->
    exists j,
      getStateIndex States Y = Some j
      /\ currentStateId (Ty:=Ty) (EvTy:=EvTy) (Payload:=Payload) m'
         = Done (N.of_nat j) m' []).
  { intros Y HY. apply process_tracks in Hrun as Htr.
    destruct (tracks_last_target States m m' tr Y) as (j & Hj & Hcur);
      [by destruct Hvalid | done..|].
    exists j. split; [by apply getStateIndex_lookup |].
    unfold currentStateId. by rewrite Hcur. }
  split; [|split; [exact Hlast |]].
  - destruct (process_at_state classes States S i Event ev
                fuel m Hnd Hi Hidx) as [(h & Hh & Heq)|(Hh & Heq)];
      rewrite Heq in Hrun.
    + apply traced_Done in Hrun as (sub & Hsub & ->).
      right. by exists h, sub.
    + injection Hrun as <- <-. by left.
  - intros Y sub pre index post -> -> Hpost.
    destruct (last_transition_split pre post Y index Hpost) as [Hown Hall].
    split; [exact Hown |]. apply Hlast. by rewrite targets_single.
Qed.

Lemma handler_transition_is_final_witness :
  valid_state_set ex2.classes ex2.States
  /\ ex2.States !! 1 = Some ex2.CloseState
  /\ m_currentState (ex2.fsm 1) = N.of_nat 1
  /\ call_process ex2.classes ex2.States 1 ex2.LockEvent 123%N (ex2.fsm 1)
     = Done tt (ex2.fsm 2)
         [Handler ex2.CloseState 1 ex2.LockEvent 123%N
            ([Output ("CloseState handling LockEvent" +:+ endl)]
             ++ Transition ex2.LockedState 2 :: [])]
  /\ last (own_targets
             ([Output ("CloseState handling LockEvent" +:+ endl)]
              ++ Transition (EvTy:=ex2.event) (Payload:=N)
                   ex2.LockedState 2 :: []))
     = Some ex2.LockedState
  /\ exists j,
       getStateIndex ex2.States ex2.LockedState = Some j
       /\ currentStateId (Ty:=ex2.state) (EvTy:=ex2.event) (Payload:=N)
            (ex2.fsm 2)
          = Done (N.of_nat j) (ex2.fsm 2) [].
Proof.
  split; [split; vm_compute; reflexivity |].
  split; [reflexivity |]. split; [reflexivity |].
  split; [vm_compute; reflexivity |].
  destruct (handler_transition_is_final ex2.classes ex2.States ex2.CloseState
              1 ex2.LockEvent 123%N 1 (ex2.fsm 1) (ex2.fsm 2)
              [Handler ex2.CloseState 1 ex2.LockEvent 123%N
                 ([Output ("CloseState handling LockEvent" +:+ endl)]
                  ++ Transition ex2.LockedState 2 :: [])])
    as (_ & _ & Hown).
  - split; vm_compute; reflexivity.
  - reflexivity.
  - reflexivity.
  - vm_compute. reflexivity.
  - apply (Hown ex2.LockedState _
             [Output ("CloseState handling LockEvent" +:+ endl)] 2%N []);
      reflexivity.
Defined.

(** The last transition need not be the one the handler asks for itself:
    the handler of [Running] calls [enterState<Starting>()], whose enter
    hook moves on to [Running], and that is where [process] leaves the
    machine. *)
Example handler_target_with_moving_hook :
  exists m' tr,
    call_process hooked.classes hooked.States 3 hooked.Tick tt
      (hooked.machine 1) = Done tt m' tr
    /\ targets tr = [hooked.Starting; hooked.Running]
    /\ m_currentState m' = 1%N.
Proof. eexists _, _. split; [vm_compute; reflexivity |]. split; reflexivity. Qed.

(** C2, as stated, fails: [Starting::enter] calls [enterState<Running>()],
    so right after [enterState<Starting>()] the index is the ordinal of
    [Running], not that of [Starting]. *)
Lemma enterState_index_counterexample :
  valid_state_set hooked.classes hooked.States
  /\ getStateIndex hooked.States hooked.Starting = Some 0
  /\ exists m' tr,
       call_enterState hooked.classes hooked.States 2 hooked.Starting
         (hooked.machine 0) = Done tt m' tr
       /\ currentStateId (Ty:=hooked.state) (EvTy:=hooked.event)
            (Payload:=unit) m'
          = Done 1%N m' []
       /\ m_currentState m' <> N.of_nat 0.
Proof.
  split; [split; vm_compute; reflexivity |]. split; [reflexivity |].
  eexists _, _. split; [vm_compute; reflexivity |].
  split; [reflexivity |]. discriminate.
Qed.

(** C2, amended.  On a valid state set, [currentStateId()] evaluated right
    after a returning [enterState<X>()] is the ordinal of the target of the
    last transition made during the call; that is the ordinal of [X]
    whenever the transition to [X] was the only one, that is, whenever
    [X]'s enter hook made no further transition.  With no enter hook the
    call always returns, with the index at the ordinal of [X]. *)
Theorem enterState_index_is_last_target
    {Ty EvTy Payload Inst Host : Type} `{EqDecision Ty}
    (classes : Ty -> StateClass Ty EvTy Payload Inst Host)
    (States : list Ty) (X : Ty) (i : nat) (fuel : nat)
    (m : StateMachine Inst Host) :
  valid_state_set classes States ->
  States !! i = Some X ->
  getStateIndex States X = Some i
  /\ (hasEnter classes X = false ->
      exists m',
        call_enterState classes States fuel X m
        = Done tt m' [Transition X (N.of_nat i)]
        /\ currentStateId (Ty:=Ty) (EvTy:=EvTy) (Payload:=Payload) m'
           = Done (N.of_nat i) m' [])
  /\ (forall m' tr,
        call_enterState classes States fuel X m = Done tt m' tr ->
        (exists Y j,
           last (targets tr) = Some Y
           /\ getStateIndex States Y = Some j
           /\ currentStateId (Ty:=Ty) (EvTy:=EvTy) (Payload:=Payload) m'
              = Done (N.of_nat j) m' [])
        /\ (targets tr = [X] ->
            currentStateId (Ty:=Ty) (EvTy:=EvTy) (Payload:=Payload) m'
            = Done (N.of_nat i) m' [])).
Proof.
  intros Hvalid Hi.
  pose proof (valid_state_set_NoDup _ _ Hvalid) as Hnd.
  assert (Hfit : pack_fits States) by (by destruct Hvalid).
  split; [by apply getStateIndex_lookup |]. split.
  - intros Hno. exists (set_currentState (N.of_nat i) m).
    split; [|reflexivity].
    unfold call_enterState. rewrite (enterState_lookup _ _ _ _ i) by done.
    apply enterState_resolved_Done. unfold hasEnter in Hno.
    destruct (enter (classes X)); [done |].
    rewrite (to_unsigned_index States);
      [done | done | by eapply lookup_lt_Some].
  - intros m' tr Hrun.
    pose proof (enterState_tracks _ _ _ _ _ _ _ Hrun) as Htr.
    assert (Hlast : forall Y, last (targets tr) = Some Y ->
      exists j, getStateIndex States Y = Some j
        /\ currentStateId (Ty:=Ty) (EvTy:=EvTy) (Payload:=Payload) m'
           = Done (N.of_nat j) m' []).
    { intros Y HY.
      destruct (tracks_last_target States m m' tr Y) as (j & Hj & Hcur);
        try done.
      exists j. split; [by apply getStateIndex_lookup |].
      unfold currentStateId. by rewrite Hcur. }
    split.
    + apply enterState_Done_head in Hrun as (i' & rest & _ & ->).
      destruct (last (targets (Transition X (to_unsigned (N.of_nat i')) :: rest)))
        as [Y|] eqn:HY.
      * destruct (Hlast Y eq_refl) as (j & Hj & Hcur). by exists Y, j.
      * apply last_None in HY. discriminate HY.
    + intros Honly. destruct (Hlast X) as (j & Hj & Hcur).
      { by rewrite Honly. }
      rewrite (getStateIndex_lookup _ _ i) in Hj by done.
      by injection Hj as <-.
Qed.

Lemma enterState_index_is_last_target_witness :
  valid_state_set hooked.classes hooked.States
  /\ hooked.States !! 1 = Some hooked.Running
  /\ exists m' tr,
       call_enterState hooked.classes hooked.States 1 hooked.Running
         (hooked.machine 0) = Done tt m' tr
       /\ targets tr = [hooked.Running]
       /\ currentStateId (Ty:=hooked.state) (EvTy:=hooked.event)
            (Payload:=unit) m'
          = Done (N.of_nat 1) m' [].
Proof.
  split; [split; vm_compute; reflexivity |]. split; [reflexivity |].
  eexists _, _. split; [vm_compute; reflexivity |]. split; [reflexivity |].
  destruct (enterState_index_is_last_target hooked.classes hooked.States
              hooked.Running 1 1 (hooked.machine 0)) as (_ & _ & Hafter).
  - split; vm_compute; reflexivity.
  - reflexivity.
  - eapply Hafter; [vm_compute; reflexivity | reflexivity].
Defined.

(** ** The index invariant *)



(** * Further properties of the header *)

(** ** The dispatch macros *)

Section MacroFacts.
Context {Ty EvTy Payload Inst Host : Type}.
Local Abbreviation Case := (case_stmt (Ty:=Ty) (EvTy:=EvTy) (Payload:=Payload) (Inst:=Inst) (Host:=Host)).

Lemma labels_app k a b :
  labels k (a + b) = labels k a ++ labels (k + N.of_nat a) b.
Proof.
  revert k. induction a as [|a IH]; intros k.
  - simpl. by rewrite N.add_0_r.
  - change (Datatypes.S a + b) with (Datatypes.S (a + b)).
    rewrite !labels_S, IH. simpl. do 2 f_equal.
    f_equal. lia.
Qed.

Lemma labels_quad k b :
  labels k (4 * b)
  = labels k b ++ labels (k + N.of_nat b) b
    ++ labels (k + N.of_nat (2 * b)) b ++ labels (k + N.of_nat (3 * b)) b.
Proof.
  replace (4 * b) with (b + (b + (b + b))) by lia.
  rewrite !labels_app.
  replace (k + N.of_nat b + N.of_nat b)%N with (k + N.of_nat (2 * b))%N by lia.
  replace (k + N.of_nat (2 * b) + N.of_nat b)%N
    with (k + N.of_nat (3 * b))%N by lia.
  reflexivity.
Qed.

Lemma elem_of_labels k len v :
  v ∈ labels k len <-> (k <= v < k + N.of_nat len)%N.
Proof.
  revert k. induction len as [|len IH]; intros k.
  - split; [by intros ?%elem_of_nil | lia].
  - rewrite labels_S, elem_of_cons, IH. lia.
Qed.

Lemma NoDup_labels k len : NoDup (labels k len).
Proof.
  revert k. induction len as [|len IH]; intros k.
  - constructor.
  - rewrite labels_S. apply NoDup_cons. split; [|apply IH].
    rewrite elem_of_labels. lia.
Qed.

Lemma DISPATCH_4_at (n : N) (X : N -> Case) :
  _TINIEST_FSM_DISPATCH_4 n X = map X (labels n 4).
Proof.
  unfold _TINIEST_FSM_DISPATCH_4, labels. cbn [seq map].
  repeat f_equal; lia.
Qed.

Lemma DISPATCH_16_at (n : N) (X : N -> Case) :
  _TINIEST_FSM_DISPATCH_16 n X = map X (labels n 16).
Proof.
  unfold _TINIEST_FSM_DISPATCH_16. rewrite !DISPATCH_4_at, <- !map_app.
  f_equal. change 16 with (4 * 4). by rewrite labels_quad.
Qed.

Lemma DISPATCH_64_at (n : N) (X : N -> Case) :
  _TINIEST_FSM_DISPATCH_64 n X = map X (labels n 64).
Proof.
  unfold _TINIEST_FSM_DISPATCH_64. rewrite !DISPATCH_16_at, <- !map_app.
  f_equal. change 64 with (4 * 16). by rewrite labels_quad.
Qed.

Lemma DISPATCH_256_at (n : N) (X : N -> Case) :
  _TINIEST_FSM_DISPATCH_256 n X = map X (labels n 256).
Proof.
  unfold _TINIEST_FSM_DISPATCH_256. rewrite !DISPATCH_64_at, <- !map_app.
  f_equal. change 256 with (4 * 64). by rewrite labels_quad.
Qed.

End MacroFacts.

(** X1.  Instantiated at any base [n] with any case generator [X], the
    four dispatch macros expand to [X(n); X(n+1); ...] with one case for
    each of the 4, 16, 64 or 256 consecutive values from [n] on, in
    increasing order and none twice; so the switch built from them has
    pairwise distinct labels covering exactly the values below the
    bound. *)
Theorem dispatch_macros_generate_consecutive_cases
    {Ty EvTy Payload Inst Host : Type}
    (n : N)
    (X : N -> case_stmt (Ty:=Ty) (EvTy:=EvTy) (Payload:=Payload)
                        (Inst:=Inst) (Host:=Host)) :
  _TINIEST_FSM_DISPATCH_4 n X = map X (labels n 4)
  /\ _TINIEST_FSM_DISPATCH_16 n X = map X (labels n 16)
  /\ _TINIEST_FSM_DISPATCH_64 n X = map X (labels n 64)
  /\ _TINIEST_FSM_DISPATCH_256 n X = map X (labels n 256)
  /\ (forall len, NoDup (labels n len))
  /\ (forall len v, v ∈ labels n len <-> (n <= v < n + N.of_nat len)%N).
Proof.
  split; [apply DISPATCH_4_at |]. split; [apply DISPATCH_16_at |].
  split; [apply DISPATCH_64_at |]. split; [apply DISPATCH_256_at |].
  split; [intros len; apply NoDup_labels |].
  intros len v. apply elem_of_labels.
Qed.

(** ** An index that is not that of a state *)

(** X2.  With the unreachable marker of GCC, Clang or MSVC, dispatching
    while the current-state index is not below the number of states is
    undefined behaviour, for every state set, event and handler: each
    generated switch runs into a padded case or the default, the table
    branch reads past the end of [f], and so [process] itself is
    undefined. *)
Theorem process_out_of_range_is_undefined
    {Ty EvTy Payload Inst Host : Type} `{EqDecision Ty}
    (classes : Ty -> StateClass Ty EvTy Payload Inst Host)
    (States : list Ty)
    (invoke : code Ty EvTy Payload Inst Host -> M Ty EvTy Payload Inst Host unit)
    (Event : EvTy) (ev : Payload) (m : StateMachine Inst Host) :
  (N.of_nat (length States) <= m_currentState m)%N ->
  process classes States invoke Event ev m = Undefined
  /\ process_table classes States invoke Event ev m = Undefined
  /\ f classes States invoke Event !! N.to_nat (m_currentState m) = None
  /\ (length States <= 4 ->
      _TINIEST_FSM_DISPATCH_IMPL classes States invoke
        _TINIEST_FSM_DISPATCH_4 Event ev m = Undefined)
  /\ (length States <= 16 ->
      _TINIEST_FSM_DISPATCH_IMPL classes States invoke
        _TINIEST_FSM_DISPATCH_16 Event ev m = Undefined)
  /\ (length States <= 64 ->
      _TINIEST_FSM_DISPATCH_IMPL classes States invoke
        _TINIEST_FSM_DISPATCH_64 Event ev m = Undefined)
  /\ (length States <= 256 ->
      _TINIEST_FSM_DISPATCH_IMPL classes States invoke
        _TINIEST_FSM_DISPATCH_256 Event ev m = Undefined).
Proof.
  intros Hidx.
  assert (Hnone : States !! N.to_nat (m_currentState m) = None)
    by (apply lookup_ge_None_2; lia).
  assert (Hd : dispatch_at_index classes States invoke Event ev m = Undefined)
    by (unfold dispatch_at_index; by rewrite Hnone).
  split; [by rewrite process_dispatch |].
  split; [by rewrite process_table_dispatch |].
  split; [apply lookup_ge_None_2; rewrite length_f; lia |].
  repeat split; intros Hn; rewrite <- Hd.
  - apply (DISPATCH_IMPL_dispatch _ _ _ _ 4); [apply DISPATCH_4_labels | lia..].
  - apply (DISPATCH_IMPL_dispatch _ _ _ _ 16); [apply DISPATCH_16_labels | lia..].
  - apply (DISPATCH_IMPL_dispatch _ _ _ _ 64); [apply DISPATCH_64_labels | lia..].
  - apply (DISPATCH_IMPL_dispatch _ _ _ _ 256); [apply DISPATCH_256_labels | lia..].
Qed.

Lemma process_out_of_range_is_undefined_witness :
  (N.of_nat (length ex2.States) <= m_currentState (ex2.fsm 7))%N
  /\ call_process ex2.classes ex2.States 5 ex2.CloseEvent 0%N (ex2.fsm 7)
     = Undefined.
Proof.
  split; [vm_compute; discriminate |].
  destruct (process_out_of_range_is_undefined ex2.classes ex2.States
              (interp ex2.classes ex2.States 5) ex2.CloseEvent 0%N
              (ex2.fsm 7)) as (Hundef & _).
  - vm_compute. discriminate.
  - exact Hundef.
Defined.

(** ** The constraints of the class template *)

(** X3.  For a pack whose size is representable in [unsigned], the
    requires-clause of [StateMachine] holds exactly when no state type
    occurs twice, every state type is a class and there is at least one
    state; so the template rejects an empty tuple, a tuple that names a
    type twice and a tuple with a non-class type. *)
Theorem constraints_satisfied_iff
    {Ty EvTy Payload Inst Host : Type} `{EqDecision Ty}
    (classes : Ty -> StateClass Ty EvTy Payload Inst Host)
    (States : list Ty) :
  pack_fits States ->
  constraints_satisfied classes States = true
  <-> NoDup States
      /\ (forall State, State ∈ States -> is_class (classes State) = true)
      /\ States <> [].
Proof.
  intros Hfit. unfold constraints_satisfied.
  rewrite !andb_true_iff, are_distinct_v_NoDup, forallb_forall, Nat.ltb_lt
    by done.
  split.
  - intros [[Hnd Hcls] Hlen]. split; [done |]. split.
    + intros State HS. by apply Hcls, list_elem_of_In.
    + destruct States; [simpl in Hlen; lia | done].
  - intros (Hnd & Hcls & Hne). split; [split; [done |] |].
    + intros State HS. by apply Hcls, list_elem_of_In.
    + destruct States; [done | simpl; lia].
Qed.

Lemma constraints_satisfied_iff_witness :
  pack_fits ex2.States
  /\ (constraints_satisfied ex2.classes ex2.States = true
      <-> NoDup ex2.States
          /\ (forall State, State ∈ ex2.States ->
                            is_class (ex2.classes State) = true)
          /\ ex2.States <> []).
Proof.
  split; [vm_compute; reflexivity |].
  apply (constraints_satisfied_iff ex2.classes ex2.States).
  vm_compute. reflexivity.
Defined.

(** ** A state type that is not in the set *)

(** X4.  For a type that is not among [States...] the static assertions
    fail: [getStateIndex], both overloads of [getState] and [enterState]
    are ill-formed, whatever the machine and the handlers, and so is any
    user code that begins with such an [enterState]. *)
Theorem state_outside_the_set_is_rejected
    {Ty EvTy Payload Inst Host : Type} `{EqDecision Ty}
    (classes : Ty -> StateClass Ty EvTy Payload Inst Host)
    (States : list Ty) (State : Ty) :
  State ∉ States ->
  valid_state_v States State = false
  /\ getStateIndex States State = None
  /\ (forall m : StateMachine Inst Host,
        getState (EvTy:=EvTy) (Payload:=Payload) States State m = Rejected)
  /\ (forall invoke (m : StateMachine Inst Host),
        enterState classes States invoke State m = Rejected)
  /\ (forall fuel k (m : StateMachine Inst Host),
        interp classes States (S fuel) (EnterState State k) m = Rejected).
Proof.
  intros Hout.
  assert (Hv : valid_state_v States State = false).
  { destruct (valid_state_v States State) eqn:Hv; [|done].
    by apply valid_state_v_elem_of in Hv. }
  split; [done |]. split; [unfold getStateIndex; by rewrite Hv |].
  split; [intros m; unfold getState; by rewrite Hv |].
  assert (He : forall invoke (m : StateMachine Inst Host),
    enterState classes States invoke State m = Rejected)
    by (intros invoke m; unfold enterState; by rewrite Hv).
  split; [done |].
  intros fuel k m. rewrite interp_EnterState. unfold bind. by rewrite He.
Qed.

Lemma state_outside_the_set_is_rejected_witness :
  (ex2.LockedState ∉ [ex2.OpenState; ex2.CloseState])
  /\ getStateIndex [ex2.OpenState; ex2.CloseState] ex2.LockedState = None.
Proof.
  assert (Hout : ex2.LockedState ∉ [ex2.OpenState; ex2.CloseState]).
  { intros Hin%elem_in_list_v_elem_of. vm_compute in Hin. discriminate. }
  split; [exact Hout |].
  destruct (state_outside_the_set_is_rejected ex2.classes
              [ex2.OpenState; ex2.CloseState] ex2.LockedState Hout)
    as (_ & Hidx & _).
  exact Hidx.
Defined.

(** ** The state instances *)

Section InstanceFacts.
Context {Ty EvTy Payload Inst Host : Type} `{EqDecision Ty}.
Local Abbreviation Code := (code Ty EvTy Payload Inst Host).
Local Abbreviation Machine := (StateMachine Inst Host).
Local Abbreviation Call := (call Ty EvTy Payload).
Local Abbreviation Mon := (M Ty EvTy Payload Inst Host).

Variable classes : Ty -> StateClass Ty EvTy Payload Inst Host.
Variable States : list Ty.

Lemma bind_Done_nil {A B} (x : Mon A) (g : A -> Mon B) m a m1 :
  x m = Done a m1 [] -> bind x g m = g a m1.
Proof. intros Hx. unfold bind. rewrite Hx. by destruct (g a m1). Qed.

Lemma getState_lookup State i (m : Machine) :
  NoDup States -> States !! i = Some State ->
  getState (EvTy:=EvTy) (Payload:=Payload) States State m = Done i m [].
Proof.
  intros Hnd Hi. unfold getState.
  assert (Hin : State ∈ States) by (eapply list_elem_of_lookup_2, Hi).
  apply valid_state_v_elem_of in Hin as ->.
  by rewrite (std_get_lookup _ _ i).
Qed.

(** Writing through [getState<State>()] replaces the instance at the
    position of [State] and nothing else. *)
Lemma interp_SetState_at fuel State i v k (m : Machine) :
  NoDup States -> States !! i = Some State ->
  length (m_states m) = length States ->
  interp classes States (S fuel) (SetState State v k) m
  = interp classes States (S fuel) k
      (set_states (<[i := v]> (m_states m)) m).
Proof.
  intros Hnd Hi Hb. rewrite interp_SetState.
  rewrite (bind_Done_nil _ _ m i m) by (by apply getState_lookup).
  rewrite (bind_Done_nil (store i v) _ m tt
             (set_states (<[i := v]> (m_states m)) m)); [done |].
  unfold store.
  destruct (lookup_lt_is_Some_2 (m_states m) i) as [w Hw];
    [rewrite Hb; by eapply lookup_lt_Some |].
  by rewrite Hw.
Qed.

(** Reading through [getState<State>()] yields the instance at the
    position of [State]. *)
Lemma interp_GetState_at fuel State i w k (m : Machine) :
  NoDup States -> States !! i = Some State ->
  m_states m !! i = Some w ->
  interp classes States (S fuel) (GetState State k) m
  = interp classes States (S fuel) (k w) m.
Proof.
  intros Hnd Hi Hw. rewrite interp_GetState.
  rewrite (bind_Done_nil _ _ m i m) by (by apply getState_lookup).
  rewrite (bind_Done_nil (load i) _ m w m); [done |].
  unfold load. by rewrite Hw.
Qed.

End InstanceFacts.

(** X5.  On a valid state set, with one instance per state in the bank:
    a value written through [getState<S>()] is the value read back through
    [getState<S>()]; the write leaves the instance of every other state
    [T] as it was; and it changes nothing of the machine but the instance
    of [S] (the index and the derived fields stay). *)
Theorem getState_write_then_read
    {Ty EvTy Payload Inst Host : Type} `{EqDecision Ty}
    (classes : Ty -> StateClass Ty EvTy Payload Inst Host)
    (States : list Ty) (S0 : Ty) (i : nat) (m : StateMachine Inst Host) :
  valid_state_set classes States ->
  States !! i = Some S0 ->
  length (m_states m) = length States ->
  (forall fuel v k,
     interp classes States (S fuel) (SetState S0 v (GetState S0 k)) m
     = interp classes States (S fuel) (SetState S0 v (k v)) m)
  /\ (forall fuel v k T j,
        States !! j = Some T -> T <> S0 ->
        exists w,
          m_states m !! j = Some w
          /\ interp classes States (S fuel) (GetState T k) m
             = interp classes States (S fuel) (k w) m
          /\ interp classes States (S fuel) (SetState S0 v (GetState T k)) m
             = interp classes States (S fuel) (SetState S0 v (k w)) m)
  /\ (forall fuel v k,
        interp classes States (S fuel) (SetState S0 v k) m
        = interp classes States (S fuel) k
            {| m_currentState := m_currentState m;
               m_states := <[i := v]> (m_states m);
               derived := derived m |}).
Proof.
  intros Hvalid Hi Hb.
  pose proof (valid_state_set_NoDup _ _ Hvalid) as Hnd.
  assert (Hlt : i < length (m_states m))
    by (rewrite Hb; by eapply lookup_lt_Some).
  split; [|split].
  - intros fuel v k. rewrite !(interp_SetState_at _ _ _ _ i) by done.
    apply (interp_GetState_at _ _ _ _ i); [done | done |].
    simpl. by apply list_lookup_insert_eq.
  - intros fuel v k T j Hj Hne.
    destruct (lookup_lt_is_Some_2 (m_states m) j) as [w Hw];
      [rewrite Hb; by eapply lookup_lt_Some |].
    assert (Hij : i <> j).
    { intros ->. rewrite Hi in Hj. by injection Hj as <-. }
    exists w. split; [done |]. split.
    + by apply (interp_GetState_at _ _ _ _ j).
    + rewrite !(interp_SetState_at _ _ _ _ i) by done.
      apply (interp_GetState_at _ _ _ _ j); [done | done |].
      simpl. by rewrite list_lookup_insert_ne.
  - intros fuel v k. by apply interp_SetState_at.
Qed.

Lemma getState_write_then_read_witness :
  valid_state_set ex2.classes ex2.States
  /\ ex2.States !! 2 = Some ex2.LockedState
  /\ length (m_states (ex2.fsm 0)) = length ex2.States
  /\ interp ex2.classes ex2.States 1
       (SetState ex2.LockedState 7%Z
          (GetState ex2.LockedState (fun x =>
             if (x =? 7)%Z then Print "seven" Return else Return)))
       (ex2.fsm 0)
     = interp ex2.classes ex2.States 1
         (SetState ex2.LockedState 7%Z (Print "seven" Return)) (ex2.fsm 0).
Proof.
  split; [split; vm_compute; reflexivity |]. split; [reflexivity |].
  split; [reflexivity |].
  destruct (getState_write_then_read ex2.classes ex2.States ex2.LockedState
              2 (ex2.fsm 0)) as (Hread & _).
  - split; vm_compute; reflexivity.
  - reflexivity.
  - reflexivity.
  - apply (Hread 0 7%Z (fun x =>
             if (x =? 7)%Z then Print "seven" Return else Return)).
Defined.

(** ** What the engine leaves alone *)

Section FrameFacts.
Context {Ty EvTy Payload Inst Host : Type} `{EqDecision Ty}.
Local Abbreviation Code := (code Ty EvTy Payload Inst Host).
Local Abbreviation Machine := (StateMachine Inst Host).
Local Abbreviation Call := (call Ty EvTy Payload).
Local Abbreviation Mon := (M Ty EvTy Payload Inst Host).

Variable classes : Ty -> StateClass Ty EvTy Payload Inst Host.
Variable States : list Ty.
Hypothesis Hcls : classes_read_only classes.

Section WithInvoke.
Variable invoke : Code -> Mon unit.
Hypothesis Hinvoke : forall c (m m' : Machine) (tr : list Call),
  read_only c -> invoke c m = Done tt m' tr ->
  m_states m' = m_states m /\ derived m' = derived m.

Lemma enterState_frame NewState (m m' : Machine) (tr : list Call) :
  enterState classes States invoke NewState m = Done tt m' tr ->
  m_states m' = m_states m /\ derived m' = derived m.
Proof using Hcls Hinvoke.
  unfold enterState.
  destruct (valid_state_v States NewState); [|discriminate].
  destruct (getStateIndex States NewState) as [i|]; [|discriminate].
  rewrite bind_get.
  intros ([] & m1 & t1 & t2 & [= <- <-] & Hrest & ->)%bind_Done.
  apply bind_Done in Hrest as ([] & m2 & t3 & t4 & [= <- <-] & Hhook & ->).
  destruct (hasEnter classes NewState).
  - destruct (std_get NewState States) as [pos|]; [|discriminate].
    destruct (enter (classes NewState)) as [hook|] eqn:Hh; [|discriminate].
    apply traced_Done in Hhook as (sub & Hrun & _).
    apply Hinvoke in Hrun; [done |]. by apply (Hcls NewState).
  - by injection Hhook as <- <-.
Qed.

Lemma process_frame Event ev (m m' : Machine) (tr : list Call) :
  process classes States invoke Event ev m = Done tt m' tr ->
  m_states m' = m_states m /\ derived m' = derived m.
Proof using Hcls Hinvoke.
  rewrite process_dispatch. unfold dispatch_at_index.
  destruct (States !! N.to_nat (m_currentState m)) as [State|];
    [|discriminate].
  unfold processFromState.
  destruct (has_handler_v classes State Event).
  - destruct (std_get State States) as [pos|]; [|discriminate].
    destruct (handle (classes State) Event) as [h|] eqn:Hh; [|discriminate].
    intros (sub & Hrun & _)%traced_Done.
    apply Hinvoke in Hrun; [done |]. by apply (Hcls State) with Event.
  - by intros [= <- <-].
Qed.

End WithInvoke.

Lemma interp_frame fuel c (m m' : Machine) (tr : list Call) :
  read_only c ->
  interp classes States fuel c m = Done tt m' tr ->
  m_states m' = m_states m /\ derived m' = derived m.
Proof using Hcls.
  revert c m m' tr. induction fuel as [|fuel IHfuel]; [discriminate |].
  induction c as [|X k IH|E ev k IH|k IH|X k IH|X v k IH|k IH|h k IH|text k IH];
    intros m m' tr Hro; simpl in Hro; try done.
  - rewrite interp_Return. by intros [= <- <-].
  - rewrite interp_EnterState.
    intros ([] & m1 & t1 & t2 & H1 & H2 & ->)%bind_Done.
    apply (enterState_frame _ IHfuel) in H1 as [Hb1 Hd1].
    apply IH in H2 as [Hb2 Hd2]; [|done]. split; congruence.
  - rewrite interp_Process.
    intros ([] & m1 & t1 & t2 & H1 & H2 & ->)%bind_Done.
    apply (process_frame _ IHfuel) in H1 as [Hb1 Hd1].
    apply IH in H2 as [Hb2 Hd2]; [|done]. split; congruence.
  - rewrite interp_CurrentStateId.
    intros (i & m1 & t1 & t2 & [= <- <- <-] & H2 & ->)%bind_Done.
    by eapply IH.
  - rewrite interp_GetState.
    intros (p & m1 & t1 & t2 & H1 & H2 & ->)%bind_Done.
    apply getState_Done in H1 as (-> & -> & _).
    apply bind_Done in H2 as (v & m2 & t3 & t4 & H2 & H3 & ->).
    apply load_Done in H2 as (-> & ->). by eapply IH.
  - rewrite interp_GetHost, bind_get. by apply IH.
  - rewrite interp_Print.
    intros ([] & m1 & t1 & t2 & [= <- <-] & H2 & ->)%bind_Done.
    by eapply IH.
Qed.

End FrameFacts.

(** X6.  The engine itself never writes a state instance or a field of
    the derived class: when no handler and no enter hook of the state
    classes writes one, every returning [enterState] and [process] call, and
    every returning run of user code that does not write one itself, leaves
    all state instances and all derived fields exactly as they were,
    however the calls nest.  Only [m_currentState] can have changed. *)
Theorem engine_never_writes_instances
    {Ty EvTy Payload Inst Host : Type} `{EqDecision Ty}
    (classes : Ty -> StateClass Ty EvTy Payload Inst Host)
    (States : list Ty) :
  classes_read_only classes ->
  (forall fuel NewState (m m' : StateMachine Inst Host) tr,
     call_enterState classes States fuel NewState m = Done tt m' tr ->
     m' = set_currentState (m_currentState m') m)
  /\ (forall fuel Event ev (m m' : StateMachine Inst Host) tr,
        call_process classes States fuel Event ev m = Done tt m' tr ->
        m' = set_currentState (m_currentState m') m)
  /\ (forall fuel c (m m' : StateMachine Inst Host) tr,
        read_only c ->
        interp classes States fuel c m = Done tt m' tr ->
        m' = set_currentState (m_currentState m') m).
Proof.
  intros Hcls.
  assert (Hrec : forall (m m' : StateMachine Inst Host),
    m_states m' = m_states m /\ derived m' = derived m ->
    m' = set_currentState (m_currentState m') m).
  { intros m [i b d] [Hb Hd]. simpl in *. subst. reflexivity. }
  split; [|split].
  - intros fuel NewState m m' tr Hrun. apply Hrec.
    eapply (enterState_frame classes States Hcls), Hrun.
    intros c m0 m0' tr0. apply interp_frame, Hcls.
  - intros fuel Event ev m m' tr Hrun. apply Hrec.
    eapply (process_frame classes States Hcls), Hrun.
    intros c m0 m0' tr0. apply interp_frame, Hcls.
  - intros fuel c m m' tr Hro Hrun. apply Hrec.
    by eapply (interp_frame classes States Hcls).
Qed.

Lemma ex1_classes_read_only : classes_read_only ex1.classes.
Proof.
  intros [|]; split.
  - intros [|] h ev [= <-]. exact I.
  - discriminate.
  - intros [|] h ev [= <-]. exact I.
  - discriminate.
Qed.

Lemma ex2_classes_read_only : classes_read_only ex2.classes.
Proof.
  intros [| |]; split; try discriminate.
  - intros [| | |] h ev [= <-]. exact I.
  - intros [| | |] h ev [= <-]; simpl; [exact I |].
    intros m_key. by destruct (ev =? m_key)%N.
  - intros [| | |] h ev [= <-]. simpl.
    intros m_key. by destruct (ev =? m_key)%N.
Qed.

Lemma engine_never_writes_instances_witness :
  classes_read_only ex2.classes
  /\ read_only ex2.main
  /\ exists m' tr,
       interp ex2.classes ex2.States 2 ex2.main (ex2.fsm 7) = Done tt m' tr
       /\ m' = set_currentState (m_currentState m') (ex2.fsm 7).
Proof.
  split; [exact ex2_classes_read_only |]. split; [exact I |].
  eexists _, _. split; [vm_compute; reflexivity |].
  destruct (engine_never_writes_instances ex2.classes ex2.States
              ex2_classes_read_only) as (_ & _ & Hcode).
  eapply (Hcode 2 ex2.main (ex2.fsm 7)); [exact I |].
  vm_compute. reflexivity.
Defined.

(** ** Entering a state and dispatching to it *)

(** X7.  On a valid state set, for a state [Y] without enter hook:
    whatever the index of the machine was before, also an indeterminate
    one, [enterState<Y>()] followed by [process(ev)] stores the ordinal of
    [Y] and then runs the dispatch step of [Y] on the machine with that
    index: the one call of [Y]'s handler for the event, or nothing when [Y]
    has none.  What follows runs after that. *)
Theorem enterState_then_process
    {Ty EvTy Payload Inst Host : Type} `{EqDecision Ty}
    (classes : Ty -> StateClass Ty EvTy Payload Inst Host)
    (States : list Ty) (Y : Ty) (j : nat) (Event : EvTy) (ev : Payload)
    (fuel : nat) (k : code Ty EvTy Payload Inst Host)
    (m : StateMachine Inst Host) :
  valid_state_set classes States ->
  States !! j = Some Y ->
  hasEnter classes Y = false ->
  interp classes States (S fuel) (EnterState Y (Process Event ev k)) m
  = bind (emit (Transition Y (N.of_nat j))) (fun _ =>
    bind (match handle (classes Y) Event with
          | Some h =>
              traced (Handler Y j Event ev) (interp classes States fuel (h ev))
          | None => ret tt
          end) (fun _ =>
    interp classes States (S fuel) k))
      (set_currentState (N.of_nat j) m).
Proof.
  intros Hvalid Hj Hno.
  pose proof (valid_state_set_NoDup _ _ Hvalid) as Hnd.
  assert (Hu : to_unsigned (N.of_nat j) = N.of_nat j).
  { apply (to_unsigned_index States); [by destruct Hvalid |].
    by eapply lookup_lt_Some. }
  assert (Henter : enterState classes States (interp classes States fuel) Y m
    = Done tt (set_currentState (N.of_nat j) m) [Transition Y (N.of_nat j)]).
  { rewrite (enterState_lookup _ _ _ _ j) by done.
    apply enterState_resolved_Done. unfold hasEnter in Hno.
    destruct (enter (classes Y)); [done |]. by rewrite Hu. }
  assert (Hproc : forall g : unit -> M Ty EvTy Payload Inst Host unit,
    bind (process classes States (interp classes States fuel) Event ev) g
         (set_currentState (N.of_nat j) m)
    = bind (match handle (classes Y) Event with
            | Some h =>
                traced (Handler Y j Event ev)
                       (interp classes States fuel (h ev))
            | None => ret tt
            end) g (set_currentState (N.of_nat j) m)).
  { intros g. unfold bind. rewrite process_dispatch.
    unfold dispatch_at_index. simpl. rewrite Nat2N.id, Hj.
    destruct (handle (classes Y) Event) as [h|] eqn:Hh.
    - by rewrite (processFromState_handler _ _ _ _ j _ _ h).
    - by rewrite processFromState_no_handler. }
  rewrite interp_EnterState, interp_Process.
  unfold bind at 1. rewrite Henter. rewrite Hproc. reflexivity.
Qed.

Lemma enterState_then_process_witness :
  valid_state_set ex2.classes ex2.States
  /\ ex2.States !! 1 = Some ex2.CloseState
  /\ hasEnter ex2.classes ex2.CloseState = false
  /\ exists m' tr,
       interp ex2.classes ex2.States 2
         (EnterState ex2.CloseState (Process ex2.LockEvent 123%N Return))
         (ex2.fsm 7) = Done tt m' tr
       /\ m_currentState m' = 2%N.
Proof.
  split; [split; vm_compute; reflexivity |]. split; [reflexivity |].
  split; [reflexivity |].
  eexists _, _.
  rewrite (enterState_then_process ex2.classes ex2.States ex2.CloseState 1
             ex2.LockEvent 123%N 1 Return (ex2.fsm 7)).
  - split; [vm_compute; reflexivity | reflexivity].
  - split; vm_compute; reflexivity.
  - reflexivity.
  - reflexivity.
Defined.

(** ** More on the type-list predicates *)

(** X8.  For a pack whose size is representable in [unsigned], the three
    predicates agree with each other: [Elem] is in the list iff it is
    counted at least once, it is not in the list iff it is counted zero
    times, the count never exceeds the size of the list, and in a list of
    distinct types every type of the list is counted exactly once. *)
Theorem contains_iff_counted
    {Ty : Type} `{EqDecision Ty} (Elem : Ty) (L : list Ty) :
  pack_fits L ->
  (details.elem_in_list_v Elem L = true
   <-> (1 <= details.count_in_list_v Elem L)%N)
  /\ (details.elem_in_list_v Elem L = false
      <-> details.count_in_list_v Elem L = 0%N)
  /\ (details.count_in_list_v Elem L <= N.of_nat (length L))%N
  /\ (details.are_distinct_v L = true ->
      details.elem_in_list_v Elem L = true ->
      details.count_in_list_v Elem L = 1%N).
Proof.
  intros Hfit. rewrite count_in_list_v_occurrences by done.
  pose proof (occurrences_pos Elem L) as Hpos.
  pose proof (occurrences_le_length Elem L) as Hle.
  pose proof (elem_in_list_v_elem_of Elem L) as Hin.
  split; [|split; [|split]].
  - rewrite Hin, <- Hpos. lia.
  - destruct (details.elem_in_list_v Elem L).
    + assert (0 < occurrences Elem L) by (by apply Hpos, Hin). split; [done | lia].
    + split; [|done]. intros _.
      destruct (occurrences Elem L) eqn:Ho; [done |].
      assert (false = true); [|done]. apply Hin, Hpos. lia.
  - lia.
  - intros Hd He. apply Hin in He.
    pose proof (proj1 (are_distinct_v_occurrences L Hfit) Hd) as Hall.
    by rewrite (Hall Elem He).
Qed.

Lemma contains_iff_counted_witness :
  pack_fits ex2.States
  /\ details.are_distinct_v ex2.States = true
  /\ details.elem_in_list_v ex2.LockedState ex2.States = true
  /\ details.count_in_list_v ex2.LockedState ex2.States = 1%N.
Proof.
  split; [vm_compute; reflexivity |]. split; [reflexivity |].
  split; [reflexivity |].
  destruct (contains_iff_counted ex2.LockedState ex2.States)
    as (_ & _ & _ & Hone).
  - vm_compute. reflexivity.
  - apply Hone; reflexivity.
Defined.

(** X9.  The three predicates do not depend on the order of the list: for
    two lists that are permutations of each other (of a size representable
    in [unsigned]) they give the same membership, the same count and the
    same verdict on distinctness.  So declaring the states of a machine in
    another order changes their ordinals but not which types are valid
    states, nor whether the class template accepts the tuple. *)
Theorem type_list_predicates_ignore_order
    {Ty EvTy Payload Inst Host : Type} `{EqDecision Ty}
    (classes : Ty -> StateClass Ty EvTy Payload Inst Host)
    (Elem : Ty) (L L' : list Ty) :
  L ≡ₚ L' ->
  pack_fits L ->
  details.elem_in_list_v Elem L = details.elem_in_list_v Elem L'
  /\ details.count_in_list_v Elem L = details.count_in_list_v Elem L'
  /\ details.are_distinct_v L = details.are_distinct_v L'
  /\ constraints_satisfied classes L = constraints_satisfied classes L'.
Proof.
  intros Hperm Hfit.
  assert (Hfit' : pack_fits L').
  { unfold pack_fits in *. by rewrite <- Hperm. }
  assert (Hdist : details.are_distinct_v L = details.are_distinct_v L').
  { apply Bool.eq_iff_eq_true.
    rewrite !are_distinct_v_NoDup by done. by rewrite Hperm. }
  split; [|split; [|split]].
  - apply Bool.eq_iff_eq_true. rewrite !elem_in_list_v_elem_of.
    by rewrite Hperm.
  - rewrite !count_in_list_v_occurrences by done. unfold occurrences.
    by rewrite Hperm.
  - done.
  - unfold constraints_satisfied. rewrite Hdist. f_equal; [f_equal |].
    + apply Bool.eq_iff_eq_true. rewrite !forallb_forall.
      split; intros Hall S HS; apply Hall;
        apply list_elem_of_In; apply list_elem_of_In in HS;
        [by rewrite Hperm | by rewrite <- Hperm].
    + by rewrite Hperm.
Qed.

Lemma type_list_predicates_ignore_order_witness :
  ex2.States ≡ₚ [ex2.LockedState; ex2.OpenState; ex2.CloseState]
  /\ pack_fits ex2.States
  /\ constraints_satisfied ex2.classes ex2.States
     = constraints_satisfied ex2.classes
         [ex2.LockedState; ex2.OpenState; ex2.CloseState].
Proof.
  assert (Hperm :
    ex2.States ≡ₚ [ex2.LockedState; ex2.OpenState; ex2.CloseState]).
  { unfold ex2.States. symmetry. apply (Permutation_cons_append [_; _]). }
  assert (Hfit : pack_fits ex2.States) by (vm_compute; reflexivity).
  split; [exact Hperm |]. split; [exact Hfit |].
  destruct (type_list_predicates_ignore_order ex2.classes ex2.OpenState
              ex2.States [ex2.LockedState; ex2.OpenState; ex2.CloseState]
              Hperm Hfit) as (_ & _ & _ & Hsame).
  exact Hsame.
Defined.

(** * Properties of the example programs *)

Lemma output_app {Ty EvTy Payload : Type} (t1 t2 : list (call Ty EvTy Payload)) :
  output (t1 ++ t2) = output t1 ++ output t2.
Proof. apply flat_map_app. Qed.

(** One [process] call of the first example follows the diagram. *)
Lemma ex1_process_step (s : ex1.state) (e : ex1.event) (fuel : nat) :
  exists tr,
    call_process ex1.classes ex1.States (S fuel) e tt (ex1_diagram.door s)
    = Done tt (ex1_diagram.door (ex1_diagram.next s e)) tr
    /\ output tr = ex1_diagram.line s e.
Proof. destruct s, e; eexists; split; reflexivity. Qed.

Lemma ex1_process_all (evs : list (ex1.event * unit)) (s : ex1.state)
    (fuel : nat) :
  exists tr,
    interp ex1.classes ex1.States (S (S fuel)) (process_all evs)
      (ex1_diagram.door s)
    = Done tt (ex1_diagram.door (ex1_diagram.run s evs)) tr
    /\ output tr = ex1_diagram.lines s evs.
Proof.
  revert s. induction evs as [|[e []] evs IH]; intros s.
  - by exists [].
  - destruct (ex1_process_step s e fuel) as (t1 & Hstep & Hout1).
    destruct (IH (ex1_diagram.next s e)) as (t2 & Hrest & Hout2).
    exists (t1 ++ t2). split.
    + cbn [process_all]. rewrite interp_Process. apply bind_Done.
      by exists tt, (ex1_diagram.door (ex1_diagram.next s e)), t1, t2.
    + rewrite output_app, Hout1, Hout2. done.
Qed.

(** One [process] call of the second example follows the diagram, for
    every key of the door and every key of the event. *)
Lemma ex2_process_step (m_key : N) (x : Z) (s : ex2.state) (e : ex2.event)
    (key : N) (fuel : nat) :
  exists tr,
    call_process ex2.classes ex2.States (S fuel) e key
      (ex2_diagram.door m_key x s)
    = Done tt (ex2_diagram.door m_key x (ex2_diagram.next m_key s e key)) tr
    /\ output tr = ex2_diagram.line s e.
Proof.
  unfold call_process. setoid_rewrite process_dispatch.
  destruct s, e; try (eexists; split; reflexivity);
    cbv -[N.eqb]; destruct (key =? m_key)%N; eexists; split; reflexivity.
Qed.

Lemma ex2_process_all (m_key : N) (x : Z) (evs : list (ex2.event * N))
    (s : ex2.state) (fuel : nat) :
  exists tr,
    interp ex2.classes ex2.States (S (S fuel)) (process_all evs)
      (ex2_diagram.door m_key x s)
    = Done tt (ex2_diagram.door m_key x (ex2_diagram.run m_key s evs)) tr
    /\ output tr = ex2_diagram.lines m_key s evs.
Proof.
  revert s. induction evs as [|[e key] evs IH]; intros s.
  - by exists [].
  - destruct (ex2_process_step m_key x s e key fuel) as (t1 & Hstep & Hout1).
    destruct (IH (ex2_diagram.next m_key s e key)) as (t2 & Hrest & Hout2).
    exists (t1 ++ t2). split.
    + cbn [process_all]. rewrite interp_Process. apply bind_Done.
      by exists tt,
        (ex2_diagram.door m_key x (ex2_diagram.next m_key s e key)), t1, t2.
    + rewrite output_app, Hout1, Hout2. done.
Qed.

Lemma ex2_run_locked (m_key : N) (evs : list (ex2.event * N)) :
  (forall key, (ex2.UnlockEvent, key) ∈ evs -> key <> m_key) ->
  ex2_diagram.run m_key ex2.LockedState evs = ex2.LockedState.
Proof.
  induction evs as [|[e key] evs IH]; intros Hkeys; [done |].
  cbn [ex2_diagram.run].
  assert (Hstay : ex2_diagram.next m_key ex2.LockedState e key
                  = ex2.LockedState).
  { destruct e; try done. simpl.
    destruct (key =? m_key)%N eqn:Hk; [|done].
    apply N.eqb_eq in Hk. exfalso. apply (Hkeys key); [|done].
    apply list_elem_of_here. }
  rewrite Hstay. apply IH. intros key' Hin. apply Hkeys.
  by apply list_elem_of_further.
Qed.

(** X10.  The door of [ex1.cpp] implements the state diagram of the
    README on every sequence of events: started in any state [s],
    [process] called for the events of [evs] one after the other returns
    with the machine in the state the diagram reaches, having printed one
    line for every event that was handled and none for an ignored one.  In
    particular a repeated event is ignored: dispatching an event twice
    leaves the door where dispatching it once does. *)
Theorem ex1_door_follows_its_diagram
    (evs : list (ex1.event * unit)) (s : ex1.state) (e : ex1.event)
    (fuel : nat) :
  (exists tr,
     interp ex1.classes ex1.States (S (S fuel)) (process_all evs)
       (ex1_diagram.door s)
     = Done tt (ex1_diagram.door (ex1_diagram.run s evs)) tr
     /\ output tr = ex1_diagram.lines s evs)
  /\ (exists tr,
        interp ex1.classes ex1.States (S (S fuel))
          (process_all [(e, tt); (e, tt)]) (ex1_diagram.door s)
        = Done tt (ex1_diagram.door (ex1_diagram.next s e)) tr
        /\ output tr = ex1_diagram.line s e).
Proof.
  split; [apply ex1_process_all |].
  destruct (ex1_process_all [(e, tt); (e, tt)] s fuel) as (tr & Hrun & Hout).
  exists tr. split.
  - rewrite Hrun. by destruct s, e.
  - rewrite Hout. by destruct s, e.
Qed.

(** X11.  The lockable door of the second example implements the state
    diagram of the README on every sequence of events, for every key of
    the door and every key carried by an event: the machine ends in the
    state the diagram reaches, locking and unlocking only with the right
    key, with the key and the state instances untouched.  One line is
    printed for every event the active state has a handler for, also when
    the handler then refuses the key, and none for an ignored event. *)
Theorem ex2_door_follows_its_diagram
    (m_key : N) (x : Z) (evs : list (ex2.event * N)) (s : ex2.state)
    (fuel : nat) :
  exists tr,
    interp ex2.classes ex2.States (S (S fuel)) (process_all evs)
      (ex2_diagram.door m_key x s)
    = Done tt (ex2_diagram.door m_key x (ex2_diagram.run m_key s evs)) tr
    /\ output tr = ex2_diagram.lines m_key s evs.
Proof. apply ex2_process_all. Qed.

(** X12.  A locked door stays locked: whatever events are dispatched to
    the second example's machine in [LockedState], if none of them is an
    [UnlockEvent] carrying the key of the door, the machine is in
    [LockedState] afterwards, exactly as it was. *)
Theorem locked_door_stays_locked
    (m_key : N) (x : Z) (evs : list (ex2.event * N)) (fuel : nat) :
  (forall key, (ex2.UnlockEvent, key) ∈ evs -> key <> m_key) ->
  exists tr,
    interp ex2.classes ex2.States (S (S fuel)) (process_all evs)
      (ex2_diagram.door m_key x ex2.LockedState)
    = Done tt (ex2_diagram.door m_key x ex2.LockedState) tr.
Proof.
  intros Hkeys.
  destruct (ex2_process_all m_key x evs ex2.LockedState fuel)
    as (tr & Hrun & _).
  exists tr. by rewrite Hrun, ex2_run_locked.
Qed.

Lemma locked_door_stays_locked_witness :
  (forall key,
     (ex2.UnlockEvent, key)
       ∈ [(ex2.UnlockEvent, 521%N); (ex2.OpenEvent, 0%N);
          (ex2.LockEvent, 123%N)] ->
     key <> 123%N)
  /\ exists tr,
       interp ex2.classes ex2.States 2
         (process_all [(ex2.UnlockEvent, 521%N); (ex2.OpenEvent, 0%N);
                       (ex2.LockEvent, 123%N)])
         (ex2_diagram.door 123 0 ex2.LockedState)
       = Done tt (ex2_diagram.door 123 0 ex2.LockedState) tr.
Proof.
  assert (Hkeys : forall key,
    (ex2.UnlockEvent, key)
      ∈ [(ex2.UnlockEvent, 521%N); (ex2.OpenEvent, 0%N);
         (ex2.LockEvent, 123%N)] ->
    key <> 123%N).
  { intros key Hin. repeat (apply elem_of_cons in Hin as [Heq|Hin]);
      try (by apply elem_of_nil in Hin); try discriminate Heq.
    injection Heq as ->. discriminate. }
  split; [exact Hkeys |].
  exact (locked_door_stays_locked 123 0 _ 0 Hkeys).
Defined.

(** X13.  The [main] of the second example does not depend on the index
    the machine starts with, which its constructor leaves indeterminate:
    for every initial index it returns without undefined behaviour, ends in
    [CloseState] with the key and the instances untouched, and prints seven
    lines, one for each handled event including the two whose key is
    refused. *)
Theorem ex2_main_runs
    (index : N) (x : Z) (fuel : nat) :
  exists tr,
    interp ex2.classes ex2.States (S (S fuel)) ex2.main
      {| m_currentState := index; m_states := [0%Z; 0%Z; x];
         derived := 123%N |}
    = Done tt (ex2_diagram.door 123 x ex2.CloseState) tr
    /\ output tr
       = ["OpenState handling CloseEvent" +:+ endl;
          "CloseState handling OpenEvent" +:+ endl;
          "OpenState handling CloseEvent" +:+ endl;
          "CloseState handling LockEvent" +:+ endl;
          "CloseState handling LockEvent" +:+ endl;
          "LockedState handling UnlockEvent" +:+ endl;
          "LockedState handling UnlockEvent" +:+ endl].
Proof.
  set (evs := [(ex2.CloseEvent, 0%N); (ex2.OpenEvent, 0%N);
               (ex2.CloseEvent, 0%N); (ex2.LockEvent, 521%N);
               (ex2.LockEvent, 123%N); (ex2.UnlockEvent, 521%N);
               (ex2.UnlockEvent, 123%N)]).
  destruct (ex2_process_all 123 x evs ex2.OpenState fuel)
    as (tr & Hrun & Hout).
  exists (Transition ex2.OpenState 0 :: tr). split.
  - change ex2.main
      with (EnterState (Inst:=Z) (Host:=N) ex2.OpenState (process_all evs)).
    rewrite interp_EnterState. apply bind_Done.
    exists tt, (ex2_diagram.door 123 x ex2.OpenState),
      [Transition ex2.OpenState 0], tr.
    split; [reflexivity |]. split; [exact Hrun | reflexivity].
  - change (output (Transition ex2.OpenState 0 :: tr)) with (output tr).
    rewrite Hout. reflexivity.
Qed.

(** X14.  The [main] of [ex1.cpp], whatever index the door starts with:
    it returns with the door open again, having printed the line of the
    first [CloseEvent] and the line of the [OpenEvent], and nothing for the
    second [CloseEvent], which finds the door closed. *)
Theorem ex1_main_runs (index : N) (fuel : nat) :
  exists tr,
    interp ex1.classes ex1.States (S (S fuel)) ex1.main
      {| m_currentState := index; m_states := [tt; tt]; derived := tt |}
    = Done tt (ex1_diagram.door ex1.OpenState) tr
    /\ output tr
       = ["OpenState handling CloseEvent" +:+ endl;
          "CloseState handling OpenEvent" +:+ endl].
Proof.
  set (evs := [(ex1.CloseEvent, tt); (ex1.CloseEvent, tt);
               (ex1.OpenEvent, tt)]).
  destruct (ex1_process_all evs ex1.OpenState fuel) as (tr & Hrun & Hout).
  exists (Transition ex1.OpenState 0 :: tr). split.
  - change ex1.main
      with (EnterState (Inst:=unit) (Host:=unit) ex1.OpenState
              (process_all evs)).
    rewrite interp_EnterState. apply bind_Done.
    exists tt, (ex1_diagram.door ex1.OpenState),
      [Transition ex1.OpenState 0], tr.
    split; [reflexivity |]. split; [exact Hrun | reflexivity].
  - change (output (Transition ex1.OpenState 0 :: tr)) with (output tr).
    rewrite Hout. reflexivity.
Qed.

(** * Further properties: starting the machine, extending the state set *)

(** X15.  Calling [enterState] first makes a client safe: on a machine
    with one instance per state, whatever its index (the constructor leaves
    it indeterminate), user code that begins with an [enterState] never
    runs into undefined behaviour, whatever it goes on to do and however
    deep handlers and hooks nest. *)
Theorem enterState_first_is_safe
    {Ty EvTy Payload Inst Host : Type} `{EqDecision Ty}
    (classes : Ty -> StateClass Ty EvTy Payload Inst Host)
    (States : list Ty) (NewState : Ty)
    (k : code Ty EvTy Payload Inst Host) (fuel : nat)
    (m : StateMachine Inst Host) :
  length (m_states m) = length States ->
  interp classes States fuel (EnterState NewState k) m <> Undefined.
Proof.
  intros Hb. destruct fuel as [|fuel]; [done |].
  rewrite interp_EnterState. apply bind_defined.
  - apply enterState_defined; [|done].
    intros c m0 Hm0. by apply interp_defined.
  - intros [] m1 t1 Hrun. apply interp_defined. split.
    + by apply (enterState_establishes_range classes States fuel NewState m m1 t1).
    + apply (enterState_tracks classes States fuel) in Hrun
        as (_ & _ & Hlen).
      by rewrite Hlen.
Qed.

Lemma enterState_first_is_safe_witness :
  length (m_states (ex2.fsm 7)) = length ex2.States
  /\ interp ex2.classes ex2.States 2 ex2.main (ex2.fsm 7) <> Undefined.
Proof.
  split; [reflexivity |].
  apply (enterState_first_is_safe ex2.classes ex2.States ex2.OpenState).
  reflexivity.
Defined.

Section ExtensionFacts.
Context {Ty : Type} `{EqDecision Ty}.

Lemma find_distance_app_l (S0 : Ty) (L L' : list Ty) :
  S0 ∈ L ->
  find_distance (map (fun T => details.is_same_v S0 T) (L ++ L'))
  = find_distance (map (fun T => details.is_same_v S0 T) L).
Proof.
  induction L as [|T L IH]; intros Hin.
  - by apply elem_of_nil in Hin.
  - simpl. destruct (details.is_same_v S0 T) eqn:Hs; [done |].
    apply is_same_v_neq in Hs. f_equal. apply IH.
    apply elem_of_cons in Hin as [?|?]; done.
Qed.

Lemma find_distance_app_r (S0 : Ty) (L L' : list Ty) :
  S0 ∉ L ->
  find_distance (map (fun T => details.is_same_v S0 T) (L ++ L'))
  = length L + find_distance (map (fun T => details.is_same_v S0 T) L').
Proof.
  induction L as [|T L IH]; intros Hout; [done |].
  apply not_elem_of_cons in Hout as [Hne Hout]. simpl.
  rewrite (is_same_v_neq_false _ _ Hne). f_equal. by apply IH.
Qed.

End ExtensionFacts.

(** X16.  Ordinals follow the order of declaration and survive an
    extension of the tuple: appending further state types to the tuple
    leaves the ordinal of every state that was already there unchanged, and
    a new state type gets the ordinal it has among the appended ones plus
    the number of states before them.  (The second example extends the
    first by appending [LockedState]; [OpenState] and [CloseState] keep the
    ordinals 0 and 1.) *)
Theorem getStateIndex_append
    {Ty : Type} `{EqDecision Ty} (States More : list Ty) (State : Ty) :
  (State ∈ States ->
   getStateIndex (States ++ More) State = getStateIndex States State)
  /\ (State ∉ States ->
      getStateIndex (States ++ More) State
      = (fun i => length States + i) <$> getStateIndex More State).
Proof.
  unfold getStateIndex. split; intros Hin.
  - assert (Hin' : State ∈ States ++ More) by (apply elem_of_app; by left).
    apply valid_state_v_elem_of in Hin as Hv.
    apply valid_state_v_elem_of in Hin' as Hv'. rewrite Hv, Hv'.
    f_equal. by apply find_distance_app_l.
  - destruct (valid_state_v More State) eqn:Hm.
    + apply valid_state_v_elem_of in Hm as Hm'.
      assert (Hin' : State ∈ States ++ More) by (apply elem_of_app; by right).
      apply valid_state_v_elem_of in Hin' as ->. simpl. f_equal.
      by apply find_distance_app_r.
    + destruct (valid_state_v (States ++ More) State) eqn:Hv; [|done].
      apply valid_state_v_elem_of, elem_of_app in Hv as [?|Hv]; [done |].
      apply valid_state_v_elem_of in Hv. congruence.
Qed.

Lemma getStateIndex_append_witness :
  ex2.CloseState ∈ [ex2.OpenState; ex2.CloseState]
  /\ getStateIndex ([ex2.OpenState; ex2.CloseState] ++ [ex2.LockedState])
       ex2.CloseState
     = getStateIndex [ex2.OpenState; ex2.CloseState] ex2.CloseState.
Proof.
  assert (Hin : ex2.CloseState ∈ [ex2.OpenState; ex2.CloseState]).
  { apply elem_in_list_v_elem_of. vm_compute. reflexivity. }
  split; [exact Hin |].
  destruct (getStateIndex_append [ex2.OpenState; ex2.CloseState]
              [ex2.LockedState] ex2.CloseState) as (Hkeep & _).
  exact (Hkeep Hin).
Defined.
